(** * Social-Network-Graph: a shallow embedding of [Main.cpp]

    The class [SocialNetwork] keeps one member, [adj], a
    [map<string, set<string>>].  Every method is modelled as a computation
    over the pair of that member and the lines written to [cout].

    - [std::map] and [std::set] are stdpp's [gmap] and [gset]; wherever
      the source iterates over one of them the model walks the keys in
      ascending order of [std::string::operator<] (bytewise lexicographic).
    - [int] is a 32 bit two's complement integer carried in [Z]; sums go
      through [int_add], which wraps.
    - [operator[]] on the local maps is [subscript]: an absent key is
      created with the value-initialised element, as in C++.
    - [adj.at] throws on an absent key: the outcome [Throws].
    - the [while] loops take fuel; the lemmas show the fuel chosen by the
      methods is never used up. *)

From Stdlib Require Import ZArith Lia.
From stdpp Require Import base tactics option list sorting strings gmap fin_maps fin_sets.

Local Open Scope Z_scope.
Set Warnings "-clear-no-such-hyp".

(** ** Machine integers *)

Definition INT_MAX : Z := 2147483647.

Definition wrap_int (z : Z) : Z := (z + 2147483648) mod 4294967296 - 2147483648.

Definition int_add (a b : Z) : Z := wrap_int (a + b).

(** [numeric_limits<int>::max()] *)
Definition INF : Z := INT_MAX.

(** ** Strings as ordered keys *)

(** [a < b] on [std::string] *)
Definition string_lt (a b : string) : bool := String.ltb a b.

(** Iteration over a [std::set<string>]: ascending order. *)
Definition set_iter (s : gset string) : list string :=
  merge_sort String.le (elements s).

(** Iteration over the keys of a [std::map<string, V>]: ascending order. *)
Definition key_le {V} (a b : string * V) : Prop := String.le a.1 b.1.
Global Instance key_le_dec {V} : RelDecision (@key_le V).
Proof. intros a b. unfold key_le. apply _. Defined.

Definition map_iter {V} (m : gmap string V) : list (string * V) :=
  merge_sort key_le (map_to_list m).

(** [m[k]] on a [std::map]: reads the element, creating it when absent. *)
Definition subscript {V} (dflt : V) (m : gmap string V) (k : string)
  : V * gmap string V :=
  match m !! k with
  | Some v => (v, m)
  | None => (dflt, <[k := dflt]> m)
  end.

(** ** The object and the output stream *)

Record World := mkWorld {
  adj : gmap string (gset string);
  cout : list string
}.

Definition M (A : Type) : Type := World → A * World.

Global Instance M_ret : MRet M := λ A a w, (a, w).
Global Instance M_bind : MBind M := λ A B f c w,
  let '(a, w') := c w in f a w'.

Definition get_adj : M (gmap string (gset string)) := λ w, (adj w, w).
Definition put_adj (a : gmap string (gset string)) : M unit :=
  λ w, (tt, mkWorld a (cout w)).
(** [cout << line << endl] *)
Definition print (line : string) : M unit :=
  λ w, (tt, mkWorld (adj w) (cout w ++ [line])).

Definition quoted (s : string) : string := "'" +:+ s +:+ "'".

(** What a call can end in. *)
Inductive outcome (A : Type) : Type :=
  | Returns (a : A)
  | Throws
  | OutOfFuel.
Global Arguments Returns {A} a.
Global Arguments Throws {A}.
Global Arguments OutOfFuel {A}.

(** ** Mutation *)

Definition addUser (userName : string) : M unit :=
  a ← get_adj;
  if bool_decide (a !! userName = None) then
    put_adj (<[userName := ∅]> a);;
    print ("User " +:+ quoted userName +:+ " added.")
  else mret tt.

(** [adj[u].insert(v)] *)
Definition adj_insert (u v : string) (a : gmap string (gset string))
  : gmap string (gset string) :=
  let '(s, a') := subscript ∅ a u in <[u := {[v]} ∪ s]> a'.

Definition addFriendship (user1 user2 : string) : M unit :=
  a ← get_adj;
  if bool_decide (a !! user1 ≠ None) && bool_decide (a !! user2 ≠ None) then
    put_adj (adj_insert user1 user2 a);;
    a' ← get_adj;
    put_adj (adj_insert user2 user1 a');;
    print ("Friendship added between " +:+ quoted user1 +:+ " and "
           +:+ quoted user2 +:+ ".")
  else print "One or both users do not exist.".

(** ** Lookup *)

Definition getFriends (userName : string) : M (gset string) :=
  a ← get_adj;
  match a !! userName with
  | Some s => mret s
  | None =>
      print ("User " +:+ quoted userName +:+ " not found.");;
      mret ∅
  end.

(** ** Display *)

(** The character [\n] as a string. *)
Definition newline : string :=
  String (Ascii.Ascii false true false true false false false false) String.EmptyString.

(** The friends of one user as [printGraph] writes them: quoted, with
    [", "] between two of them. *)
Definition friends_text (fs : list string) : string :=
  (foldl (λ (ts : string * string) friendName,
            (ts.1 +:+ ts.2 +:+ quoted friendName, ", "))
         (String.EmptyString, String.EmptyString) fs).1.

(** The line [printGraph] writes for one entry of [adj]. *)
Definition user_line (pair : string * gset string) : string :=
  quoted pair.1 +:+ " is friends with: {" +:+ friends_text (set_iter pair.2) +:+ "}".

(** The [for] over the entries of [adj]. *)
Definition print_users (l : list (string * gset string)) : M unit :=
  foldl (λ (out : M unit) pair, out;; print (user_line pair)) (mret tt) l.

Definition printGraph : M unit :=
  print (newline +:+ "--- Social Network Graph ---");;
  a ← get_adj;
  if bool_decide (a = ∅) then print "The network is empty."
  else
    print_users (map_iter a);;
    print ("----------------------------" +:+ newline).

(** ** Mutual friends *)

(** [std::set_intersection] over two ascending ranges. *)
Fixpoint set_intersection (l1 : list string) : list string → list string :=
  fix go (l2 : list string) : list string :=
    match l1, l2 with
    | x :: l1', y :: l2' =>
        if string_lt x y then set_intersection l1' l2
        else if string_lt y x then go l2'
        else x :: set_intersection l1' l2'
    | _, _ => []
    end.

Definition getMutualFriends (user1 user2 : string) : M (gset string) :=
  a ← get_adj;
  match a !! user1, a !! user2 with
  | Some friends1, Some friends2 =>
      mret (list_to_set (set_intersection (set_iter friends1) (set_iter friends2)))
  | _, _ =>
      print ("Error: One or both users (" +:+ quoted user1 +:+ ", "
             +:+ quoted user2 +:+ ") not found for mutual friends calculation.");;
      mret ∅
  end.

(** ** Friend suggestions *)

(** [suggestionCounts[potentialFriend]++] *)
Definition count_incr (counts : gmap string Z) (k : string) : gmap string Z :=
  let '(n, counts') := subscript 0 counts k in <[k := int_add n 1]> counts'.

(** The inner [for]: the friends of one direct friend. *)
Definition suggest_inner (a : gmap string (gset string)) (userName : string)
    (directFriends : gset string) (counts : gmap string Z)
    (fofs : list string) : gmap string Z :=
  foldl (λ counts potentialFriend,
           if bool_decide (potentialFriend ≠ userName)
              && bool_decide (potentialFriend ∉ directFriends)
           then if bool_decide (a !! potentialFriend ≠ None)
                then count_incr counts potentialFriend
                else counts
           else counts)
        counts fofs.

(** The outer [for]: every direct friend. *)
Definition suggest_outer (a : gmap string (gset string)) (userName : string)
    (directFriends : gset string) : gmap string Z :=
  foldl (λ counts friendName,
           match a !! friendName with
           | None => counts
           | Some fs => suggest_inner a userName directFriends counts (set_iter fs)
           end)
        ∅ (set_iter directFriends).

(** The comparator handed to [std::sort]. *)
Definition suggestion_before (x y : string * Z) : bool :=
  if bool_decide (x.2 ≠ y.2) then bool_decide (x.2 > y.2)
  else string_lt x.1 y.1.

(** [std::sort] with that comparator.  The keys of the vector are pairwise
    different, so the comparator is a strict total order on it and every
    sorting algorithm returns the same vector. *)
Definition not_after (x y : string * Z) : Prop := suggestion_before y x = false.
Global Instance not_after_dec : RelDecision not_after.
Proof. intros x y. unfold not_after. apply _. Defined.

Definition std_sort (l : list (string * Z)) : list (string * Z) :=
  merge_sort not_after l.

Definition suggestFriends (userName : string) : M (list (string * Z)) :=
  a ← get_adj;
  match a !! userName with
  | None =>
      print ("Error: User " +:+ quoted userName
             +:+ " not found for friend suggestions.");;
      mret []
  | Some directFriends =>
      let suggestionCounts := suggest_outer a userName directFriends in
      mret (std_sort (map_iter suggestionCounts))
  end.

(** ** Shortest path: breadth-first search *)

Module BFS.

(** The locals of [shortestPathBFS] that the loops update. *)
Record state := mk {
  q : list string;
  parent : gmap string string;
  dist : gmap string Z;
  found : bool;
  distance : Z
}.

(** [for (pair : adj) { dist[pair.first] = -1; parent[pair.first] = ""; }] *)
Definition init (a : gmap string (gset string))
  : gmap string Z * gmap string string :=
  foldl (λ dp pair, (<[pair.1 := -1]> dp.1, <[pair.1 := String.EmptyString]> dp.2))
        (∅, ∅) (map_iter a).

(** The [for] over the neighbours of [currentUser], with its [break]. *)
Fixpoint explore (endUser currentUser : string) (nbrs : list string)
    (st : state) : state :=
  match nbrs with
  | [] => st
  | neighbor :: rest =>
      if bool_decide (dist st !! neighbor = Some (-1)) then
        let '(dcur, dist1) := subscript 0 (dist st) currentUser in
        let dist2 := <[neighbor := int_add dcur 1]> dist1 in
        let parent2 := <[neighbor := currentUser]> (parent st) in
        let q2 := q st ++ [neighbor] in
        if bool_decide (neighbor = endUser) then
          let '(dn, dist3) := subscript 0 dist2 neighbor in
          mk q2 parent2 dist3 true dn
        else explore endUser currentUser rest
                     (mk q2 parent2 dist2 (found st) (distance st))
      else explore endUser currentUser rest st
  end.

(** [while (!q.empty() && !found)] *)
Fixpoint while (fuel : nat) (a : gmap string (gset string)) (endUser : string)
    (st : state) : outcome state :=
  match fuel with
  | O => OutOfFuel
  | S fuel' =>
      match q st with
      | [] => Returns st
      | currentUser :: q' =>
          if found st then Returns st
          else match a !! currentUser with
               | None => Throws
               | Some nbrs =>
                   while fuel' a endUser
                     (explore endUser currentUser (set_iter nbrs)
                        (mk q' (parent st) (dist st) (found st) (distance st)))
               end
      end
  end.

(** [while (!current.empty()) { path.push_front(current); current = parent[current]; }] *)
Fixpoint rebuild (fuel : nat) (parent : gmap string string) (current : string)
    (path : list string) : outcome (list string) :=
  match fuel with
  | O => OutOfFuel
  | S fuel' =>
      if bool_decide (current = String.EmptyString) then Returns path
      else let '(p, parent') := subscript String.EmptyString parent current in
           rebuild fuel' parent' p (current :: path)
  end.

End BFS.

Definition shortestPathBFS (startUser endUser : string)
  : M (outcome (Z * list string)) :=
  a ← get_adj;
  if bool_decide (a !! startUser = None) then
    print ("Error: Start user " +:+ quoted startUser +:+ " not found for BFS.");;
    mret (Returns (-1, []))
  else if bool_decide (a !! endUser = None) then
    print ("Error: End user " +:+ quoted endUser +:+ " not found for BFS.");;
    mret (Returns (-1, []))
  else if bool_decide (startUser = endUser) then
    mret (Returns (0, [startUser]))
  else
    let '(dist, parent) := BFS.init a in
    let st0 := BFS.mk [startUser] parent (<[startUser := 0]> dist) false (-1) in
    match BFS.while (S (size a)) a endUser st0 with
    | Returns st =>
        if BFS.found st then
          match BFS.rebuild (S (size a)) (BFS.parent st) endUser [] with
          | Returns path => mret (Returns (BFS.distance st, path))
          | Throws => mret Throws
          | OutOfFuel => mret OutOfFuel
          end
        else
          print ("BFS: No path found between " +:+ quoted startUser +:+ " and "
                 +:+ quoted endUser +:+ ".");;
          mret (Returns (BFS.distance st, []))
    | Throws => mret Throws
    | OutOfFuel => mret OutOfFuel
    end.

(** ** Shortest path: Dijkstra *)

Module Dijkstra.

Record state := mk {
  dist : gmap string Z;
  parent : gmap string string;
  pq : list (Z * string);
  found : bool;
  finalDistance : Z
}.

(** [operator<] of [pair<int, string>] *)
Definition pair_lt (x y : Z * string) : bool :=
  bool_decide (x.1 < y.1)
  || (negb (bool_decide (y.1 < x.1)) && string_lt x.2 y.2).

(** The queue is a [priority_queue] under [greater<>]: a bag whose top is
    its least pair. *)
Fixpoint top (l : list (Z * string)) : option (Z * string) :=
  match l with
  | [] => None
  | x :: l' =>
      match top l' with
      | None => Some x
      | Some y => if pair_lt y x then Some y else Some x
      end
  end.

Fixpoint remove (x : Z * string) (l : list (Z * string)) : list (Z * string) :=
  match l with
  | [] => []
  | y :: l' => if decide (x = y) then l' else y :: remove x l'
  end.

Definition init (a : gmap string (gset string))
  : gmap string Z * gmap string string :=
  foldl (λ dp pair, (<[pair.1 := INF]> dp.1, <[pair.1 := String.EmptyString]> dp.2))
        (∅, ∅) (map_iter a).

(** The body of the [for] over the neighbours of [u]. *)
Definition relax (u : string) (st : state) (v : string) : state :=
  let weight := 1 in
  if bool_decide (dist st !! v ≠ None) then
    let '(du, dist1) := subscript 0 (dist st) u in
    let '(dv, dist2) := subscript 0 dist1 v in
    if bool_decide (du ≠ INF) && bool_decide (int_add du weight < dv) then
      let dist3 := <[v := int_add du weight]> dist2 in
      let parent3 := <[v := u]> (parent st) in
      let '(dv', dist4) := subscript 0 dist3 v in
      mk dist4 parent3 ((dv', v) :: pq st) (found st) (finalDistance st)
    else mk dist2 (parent st) (pq st) (found st) (finalDistance st)
  else st.

(** [while (!pq.empty())] *)
Fixpoint while (fuel : nat) (a : gmap string (gset string)) (endUser : string)
    (st : state) : outcome state :=
  match fuel with
  | O => OutOfFuel
  | S fuel' =>
      match top (pq st) with
      | None => Returns st
      | Some (d, u) =>
          let pq' := remove (d, u) (pq st) in
          let '(du, dist1) := subscript 0 (dist st) u in
          if bool_decide (d > du) then
            while fuel' a endUser
                  (mk dist1 (parent st) pq' (found st) (finalDistance st))
          else if bool_decide (u = endUser) then
            Returns (mk dist1 (parent st) pq' true du)
          else match a !! u with
               | None => Throws
               | Some nbrs =>
                   while fuel' a endUser
                     (foldl (relax u)
                            (mk dist1 (parent st) pq' (found st) (finalDistance st))
                            (set_iter nbrs))
               end
      end
  end.

Fixpoint rebuild (fuel : nat) (parent : gmap string string) (current : string)
    (path : list string) : outcome (list string) :=
  match fuel with
  | O => OutOfFuel
  | S fuel' =>
      if bool_decide (current = String.EmptyString) then Returns path
      else
        let path' := current :: path in
        match parent !! current with
        | None => Returns path'
        | Some p =>
            if bool_decide (p = String.EmptyString) then Returns path'
            else rebuild fuel' parent p path'
        end
  end.

End Dijkstra.


Definition shortestPathDijkstra (startUser endUser : string)
  : M (outcome (Z * list string)) :=
  a ← get_adj;
  if bool_decide (a !! startUser = None) then
    print ("Error: Start user " +:+ quoted startUser +:+ " not found for Dijkstra.");;
    mret (Returns (-1, []))
  else if bool_decide (a !! endUser = None) then
    print ("Error: End user " +:+ quoted endUser +:+ " not found for Dijkstra.");;
    mret (Returns (-1, []))
  else if bool_decide (startUser = endUser) then
    mret (Returns (0, [startUser]))
  else
    let '(dist, parent) := Dijkstra.init a in
    let st0 := Dijkstra.mk (<[startUser := 0]> dist) parent [(0, startUser)] false (-1) in
    match Dijkstra.while (S (size a)) a endUser st0 with
    | Returns st =>
        if Dijkstra.found st then
          match Dijkstra.rebuild (S (size a)) (Dijkstra.parent st) endUser [] with
          | Returns path => mret (Returns (Dijkstra.finalDistance st, path))
          | Throws => mret Throws
          | OutOfFuel => mret OutOfFuel
          end
        else
          print ("Dijkstra: No path found between " +:+ quoted startUser +:+ " and "
                 +:+ quoted endUser +:+ ".");;
          mret (Returns (Dijkstra.finalDistance st, []))
    | Throws => mret Throws
    | OutOfFuel => mret OutOfFuel
    end.

(** ** The network of [main] *)

Definition empty_world : World := mkWorld ∅ [].

Definition run {A} (c : M A) (w : World) : World := (c w).2.

Definition demo : World :=
  let users := ["Alice"; "Bob"; "Charlie"; "David"; "Eve"; "Frank"; "Grace"; "Heidi"] in
  let friendships :=
    [("Alice", "Bob"); ("Alice", "Charlie"); ("Bob", "David"); ("Charlie", "David");
     ("Charlie", "Eve"); ("David", "Eve"); ("Eve", "Frank"); ("Frank", "Heidi")] in
  let w1 := foldl (λ w u, run (addUser u) w) empty_world users in
  foldl (λ w p, run (addFriendship p.1 p.2) w) w1 friendships.

(** A call of one of the two mutating methods. *)
Inductive call : Type :=
  | AddUser (userName : string)
  | AddFriendship (user1 user2 : string).

Definition exec (c : call) : World → World :=
  match c with
  | AddUser u => run (addUser u)
  | AddFriendship a b => run (addFriendship a b)
  end.

Definition exec_all (cs : list call) (w : World) : World :=
  foldl (λ w c, exec c w) w cs.

(** The graph states that calls of [addUser] and [addFriendship] build from
    the empty network. *)
Definition reachable (w : World) : Prop :=
  ∃ cs, w = exec_all cs empty_world.

(** A network in which a user was befriended with itself. *)
Definition self_friend_world : World :=
  exec_all [AddUser "a"; AddUser "b"; AddFriendship "a" "a"; AddFriendship "a" "b"]
           empty_world.

(** ** Vocabulary of the properties *)

(** The friend set stored for [u]; empty when [u] is no user. *)
Definition neighbors (g : gmap string (gset string)) (u : string) : gset string :=
  default ∅ (g !! u).

Definition is_user (g : gmap string (gset string)) (u : string) : Prop :=
  is_Some (g !! u).

Definition symmetric (g : gmap string (gset string)) : Prop :=
  ∀ u v, v ∈ neighbors g u ↔ u ∈ neighbors g v.

Definition closed (g : gmap string (gset string)) : Prop :=
  ∀ u v, v ∈ neighbors g u → is_user g v.

Definition no_self_loop (g : gmap string (gset string)) : Prop :=
  ∀ u, u ∉ neighbors g u.

(** One edge of the graph: a stored friendship between two users. *)
Definition edge (g : gmap string (gset string)) (u v : string) : Prop :=
  v ∈ neighbors g u ∧ is_user g v.

(** [hops g u n v]: a path of [n] edges leads from user [u] to [v]. *)
Inductive hops (g : gmap string (gset string)) (u : string) : nat → string → Prop :=
  | hops_O : is_user g u → hops g u O u
  | hops_S n v x : hops g u n v → edge g v x → hops g u (S n) x.

Definition connected (g : gmap string (gset string)) (u v : string) : Prop :=
  ∃ n, hops g u n v.

(** [d] is the least number of edges on a path from [u] to [v]. *)
Definition min_hops (g : gmap string (gset string)) (u v : string) (d : Z) : Prop :=
  0 ≤ d ∧ hops g u (Z.to_nat d) v ∧ ∀ n, hops g u n v → d ≤ Z.of_nat n.

(** ** Invariant of a search that grows the visited set level by level *)

(** [x] was reached, and [d] is the distance recorded for it; [unv] is the
    value that marks a user not reached yet ([-1] in the breadth-first
    search, [INF] in Dijkstra's). *)
Definition seen (unv : Z) (dist : gmap string Z) (x : string) (d : Z) : Prop :=
  dist !! x = Some d ∧ d ≠ unv.

(** The state of a search from [start]: [F] holds the users waiting to be
    expanded, [h] is the user being expanded and [todo] its neighbours not
    looked at yet, [k] is the distance of [h], and [vs] lists the users
    reached so far. *)
Record frontier_inv (g : gmap string (gset string)) (start : string) (unv : Z)
    (k : Z) (F : list string) (h : string) (todo : list string)
    (dist : gmap string Z) (vs : list string) : Prop := {
  fi_dom : ∀ x, is_Some (dist !! x) ↔ is_user g x;
  fi_k : 0 ≤ k;
  fi_walk : ∀ x d, seen unv dist x d → 0 ≤ d ∧ hops g start (Z.to_nat d) x;
  fi_min : ∀ x d n, seen unv dist x d → hops g start n x → d ≤ Z.of_nat n;
  fi_level : ∀ n x, hops g start n x → Z.of_nat n ≤ k → ∃ d, seen unv dist x d;
  fi_front : ∀ x, x ∈ F → seen unv dist x k ∨ seen unv dist x (k + 1);
  fi_upper : ∀ x d, seen unv dist x d → d ≤ k + 1;
  fi_cur : seen unv dist h k;
  fi_todo : ∀ y, y ∈ todo → y ∈ neighbors g h;
  fi_proc : ∀ x y d, seen unv dist x d → x ∉ F → edge g x y →
            (∃ d', seen unv dist y d') ∨ (x = h ∧ y ∈ todo);
  fi_nodup : NoDup vs;
  fi_vs : ∀ x, x ∈ vs ↔ ∃ d, seen unv dist x d;
  fi_count : ∀ x d, seen unv dist x d → d < Z.of_nat (length vs)
}.

Global Arguments fi_dom {g start unv k F h todo dist vs} _.
Global Arguments fi_k {g start unv k F h todo dist vs} _.
Global Arguments fi_walk {g start unv k F h todo dist vs} _.
Global Arguments fi_min {g start unv k F h todo dist vs} _.
Global Arguments fi_level {g start unv k F h todo dist vs} _.
Global Arguments fi_front {g start unv k F h todo dist vs} _.
Global Arguments fi_upper {g start unv k F h todo dist vs} _.
Global Arguments fi_cur {g start unv k F h todo dist vs} _.
Global Arguments fi_todo {g start unv k F h todo dist vs} _.
Global Arguments fi_proc {g start unv k F h todo dist vs} _.
Global Arguments fi_nodup {g start unv k F h todo dist vs} _.
Global Arguments fi_vs {g start unv k F h todo dist vs} _.
Global Arguments fi_count {g start unv k F h todo dist vs} _.

(** The parent recorded for a reached user was reached one level earlier;
    [start] has none. *)
Definition parent_inv (g : gmap string (gset string)) (unv : Z) (start : string)
    (dist : gmap string Z) (parent : gmap string string) : Prop :=
  parent !! start = Some String.EmptyString
  ∧ ∀ x d, seen unv dist x d → x ≠ start →
           ∃ p, parent !! x = Some p ∧ seen unv dist p (d - 1) ∧ edge g p x.

(** What the loops of [shortestPathBFS] maintain while [endUser] is not
    reached.  The queue holds the users at distance [k] before those at
    distance [k + 1]; [n] bounds the iterations that remain. *)
Definition bfs_inv (g : gmap string (gset string)) (start endUser : string)
    (n : nat) (h : string) (todo : list string) (st : BFS.state) : Prop :=
  ∃ k vs A B,
    frontier_inv g start (-1) k (BFS.q st) h todo (BFS.dist st) vs
    ∧ BFS.q st = A ++ B
    ∧ (∀ x, x ∈ A → seen (-1) (BFS.dist st) x k)
    ∧ (∀ x, x ∈ B → seen (-1) (BFS.dist st) x (k + 1))
    ∧ parent_inv g (-1) start (BFS.dist st) (BFS.parent st)
    ∧ BFS.found st = false
    ∧ BFS.distance st = -1
    ∧ (∀ d, ¬ seen (-1) (BFS.dist st) endUser d)
    ∧ (length (BFS.q st) + (size g - length vs) ≤ n)%nat.

(** What holds when the search leaves its loop with [found] set. *)
Definition search_found (g : gmap string (gset string)) (unv : Z)
    (start endUser : string) (found : bool) (distance : Z)
    (parent : gmap string string) : Prop :=
  found = true
  ∧ min_hops g start endUser distance
  ∧ ∃ dist, parent_inv g unv start dist parent
            ∧ seen unv dist endUser distance
            ∧ distance < Z.of_nat (size g)
            ∧ seen unv dist start 0
            ∧ ∀ x d, seen unv dist x d → 0 ≤ d ∧ is_user g x.

(** What the loops of [shortestPathDijkstra] maintain until [endUser] is
    taken from the queue.  Every pair in the queue carries the distance on
    record for its user. *)
Definition dijkstra_inv (g : gmap string (gset string)) (start endUser : string)
    (n : nat) (h : string) (todo : list string) (st : Dijkstra.state) : Prop :=
  ∃ k vs,
    frontier_inv g start INF k (Dijkstra.pq st).*2 h todo (Dijkstra.dist st) vs
    ∧ (∀ d x, (d, x) ∈ Dijkstra.pq st → seen INF (Dijkstra.dist st) x d)
    ∧ parent_inv g INF start (Dijkstra.dist st) (Dijkstra.parent st)
    ∧ Dijkstra.found st = false
    ∧ Dijkstra.finalDistance st = -1
    ∧ (∀ d, seen INF (Dijkstra.dist st) endUser d → endUser ∈ (Dijkstra.pq st).*2)
    ∧ (length (Dijkstra.pq st) + (size g - length vs) ≤ n)%nat.

(** [trail g l]: the users of [l] exist and each is joined to the next by an
    edge. *)
Inductive trail (g : gmap string (gset string)) : list string → Prop :=
  | trail_one u : is_user g u → trail g [u]
  | trail_cons u v l : edge g u v → trail g (v :: l) → trail g (u :: v :: l).

(** What the path returned with distance [d] is.  The loops that rebuild it
    stop at an empty name, so they walk all the way back to [s] only when
    no user has the empty name; asked for the user with the empty name they
    do not start. *)
Definition path_ok (g : gmap string (gset string)) (s e : string) (d : Z)
    (path : list string) : Prop :=
  (¬ is_user g String.EmptyString →
     trail g path ∧ head path = Some s ∧ last path = Some e
     ∧ length path = S (Z.to_nat d))
  ∧ (e = String.EmptyString → path = []).

(** What a path query answers on two different users: either the least
    number of edges between them, below the number of users, with a path, or
    the no-path outcome with
    its line on [cout]. *)
Definition path_answer (algo : string) (startUser endUser : string) (w : World)
    (r : outcome (Z * list string) * World) : Prop :=
  (∃ d path, r = (Returns (d, path), w)
             ∧ min_hops (adj w) startUser endUser d
             ∧ path_ok (adj w) startUser endUser d path
             ∧ d < Z.of_nat (size (adj w)))
  ∨ (r = (Returns (-1, []),
          mkWorld (adj w)
            (cout w ++ [algo +:+ ": No path found between " +:+ quoted startUser
                        +:+ " and " +:+ quoted endUser +:+ "."]))
     ∧ ¬ connected (adj w) startUser endUser).

(** The name a call adds to the network, if it is an [addUser]. *)
Definition added_user (c : call) : option string :=
  match c with
  | AddUser u => Some u
  | AddFriendship _ _ => None
  end.

Definition added_users (cs : list call) : list string := omap added_user cs.


(** The number of direct friends of [label] that have [c] among their own
    friends. *)
Definition score (g : gmap string (gset string)) (label c : string) : nat :=
  length (filter (λ f, c ∈ neighbors g f) (elements (neighbors g label))).

(** Who may be suggested to [label]: a user other than [label] that is not
    a friend of [label] already. *)
Definition candidate (g : gmap string (gset string)) (label c : string) : Prop :=
  c ≠ label ∧ (c ∉ neighbors g label) ∧ is_user g c.

Global Instance candidate_dec g label c : Decision (candidate g label c).
Proof. unfold candidate, is_user. apply _. Defined.

(** The number of users in the list [l] that have [c] among their friends. *)
Definition via (g : gmap string (gset string)) (c : string) (l : list string) : nat :=
  length (filter (λ f, c ∈ neighbors g f) l).

(** What the map of counts holds after the direct friends in [l] were
    looked at. *)
Definition counted (g : gmap string (gset string)) (label : string)
    (l : list string) (counts : gmap string Z) : Prop :=
  ∀ c, counts !! c
       = if decide (candidate g label c ∧ (0 < via g c l)%nat)
         then Some (Z.of_nat (via g c l)) else None.

(** ** The demonstration network of [main] and its expected answers *)

Example demo_mutual_Alice_David :
  (getMutualFriends "Alice" "David" demo).1 = {["Bob"; "Charlie"]}.
Proof. vm_compute. reflexivity. Qed.

Example demo_mutual_Bob_Eve : (getMutualFriends "Bob" "Eve" demo).1 = {["David"]}.
Proof. vm_compute. reflexivity. Qed.

Example demo_suggest_Alice :
  (suggestFriends "Alice" demo).1 = [("David", 2); ("Eve", 1)].
Proof. vm_compute. reflexivity. Qed.

Example demo_bfs_Alice_Eve :
  (shortestPathBFS "Alice" "Eve" demo).1 = Returns (2, ["Alice"; "Charlie"; "Eve"]).
Proof. vm_compute. reflexivity. Qed.

Example demo_bfs_Bob_Heidi :
  (shortestPathBFS "Bob" "Heidi" demo).1
  = Returns (4, ["Bob"; "David"; "Eve"; "Frank"; "Heidi"]).
Proof. vm_compute. reflexivity. Qed.

Example demo_bfs_Alice_Grace : (shortestPathBFS "Alice" "Grace" demo).1 = Returns (-1, []).
Proof. vm_compute. reflexivity. Qed.

Example demo_dijkstra_Alice_Heidi :
  (shortestPathDijkstra "Alice" "Heidi" demo).1
  = Returns (4, ["Alice"; "Charlie"; "Eve"; "Frank"; "Heidi"]).
Proof. vm_compute. reflexivity. Qed.

(** ** The order on strings *)

Lemma string_lt_le x y : string_lt x y = true → String.le x y.
Proof.
  unfold string_lt, String.ltb, String.le, String.leb.
  destruct (String.compare x y); done.
Qed.

Lemma string_lt_ne x y : string_lt x y = true → x ≠ y.
Proof.
  unfold string_lt, String.ltb. intros H ->.
  pose proof (String.compare_antisym y y) as E.
  destruct (String.compare y y); done.
Qed.

Lemma string_lt_asym x y : string_lt x y = true → string_lt y x = false.
Proof.
  unfold string_lt, String.ltb. rewrite (String.compare_antisym x y).
  destruct (String.compare y x); done.
Qed.

Lemma string_lt_total x y : string_lt x y = false → string_lt y x = false → x = y.
Proof.
  unfold string_lt, String.ltb. rewrite (String.compare_antisym x y).
  destruct (String.compare y x) eqn:E; try done.
  intros _ _. symmetry. by apply String.compare_eq_iff.
Qed.

Lemma string_le_ne_lt x y : String.le x y → x ≠ y → string_lt x y = true.
Proof.
  intros Hle Hne. destruct (string_lt x y) eqn:E; [done|].
  destruct (string_lt y x) eqn:E'.
  - apply string_lt_le in E'. destruct Hne. by apply (anti_symm String.le).
  - destruct Hne. by apply string_lt_total.
Qed.

Lemma string_lt_trans x y z :
  string_lt x y = true → string_lt y z = true → string_lt x z = true.
Proof.
  intros Hxy Hyz. apply string_le_ne_lt.
  - trans y; by apply string_lt_le.
  - intros ->. apply string_lt_asym in Hxy. congruence.
Qed.

(** A range as an iterator of [std::set] yields it: strictly ascending. *)
Definition ascending (l : list string) : Prop :=
  StronglySorted (λ x y, string_lt x y = true) l.

Lemma elem_of_set_iter (s : gset string) x : x ∈ set_iter s ↔ x ∈ s.
Proof. unfold set_iter. rewrite merge_sort_Permutation. apply elem_of_elements. Qed.

Lemma NoDup_set_iter (s : gset string) : NoDup (set_iter s).
Proof. unfold set_iter. rewrite merge_sort_Permutation. apply NoDup_elements. Qed.

Lemma ascending_set_iter (s : gset string) : ascending (set_iter s).
Proof.
  pose proof (NoDup_set_iter s) as Hnd.
  assert (StronglySorted String.le (set_iter s)) as Hs
    by apply (StronglySorted_merge_sort _).
  unfold ascending. induction Hs as [|x l Hs IH Hall]; [constructor|].
  apply NoDup_cons in Hnd as [Hx Hnd]. constructor; [by apply IH|].
  rewrite Forall_forall in Hall |- *. intros y Hy.
  apply string_le_ne_lt; [by apply Hall|]. intros ->. done.
Qed.

(** ** What the two mutating methods do to [adj] *)

Ltac unfold_M :=
  unfold run, mbind, M_bind, mret, M_ret, get_adj, put_adj, print in *;
  cbn [adj cout fst snd] in *.

Lemma addUser_adj u w :
  adj (run (addUser u) w)
  = if decide (adj w !! u = None) then <[u := ∅]> (adj w) else adj w.
Proof. unfold addUser. unfold_M. case_bool_decide; case_decide; done. Qed.

Lemma addFriendship_adj a b w :
  adj (run (addFriendship a b) w)
  = if decide (is_user (adj w) a ∧ is_user (adj w) b)
    then adj_insert b a (adj_insert a b (adj w)) else adj w.
Proof.
  unfold addFriendship, is_user. unfold_M.
  case_decide as Hab.
  - destruct Hab as [[sa Ha] [sb Hb]]. rewrite Ha, Hb.
    rewrite !bool_decide_eq_true_2 by done. done.
  - destruct (adj w !! a) eqn:Ha; destruct (adj w !! b) eqn:Hb;
      repeat case_bool_decide; simpl; try done; destruct Hab; eauto.
Qed.

Lemma neighbors_adj_insert u v g x :
  neighbors (adj_insert u v g) x
  = if decide (x = u) then {[v]} ∪ neighbors g u else neighbors g x.
Proof.
  unfold neighbors, adj_insert, subscript.
  destruct (g !! u) as [s|] eqn:E; case_decide; simplify_map_eq; done.
Qed.

Lemma is_user_adj_insert u v g x :
  is_user (adj_insert u v g) x ↔ x = u ∨ is_user g x.
Proof.
  unfold is_user, adj_insert, subscript.
  destruct (g !! u) as [s|] eqn:E; destruct (decide (x = u)) as [->|];
    simplify_map_eq; rewrite ?E; naive_solver.
Qed.

Lemma lookup_adj_insert_ne u v g x : x ≠ u → adj_insert u v g !! x = g !! x.
Proof.
  intros Hne. unfold adj_insert, subscript.
  destruct (g !! u); by rewrite ?lookup_insert_ne by done.
Qed.

Lemma neighbors_insert_empty u g x :
  g !! u = None → neighbors (<[u := ∅]> g) x = neighbors g x.
Proof.
  intros Hu. unfold neighbors.
  destruct (decide (x = u)) as [->|]; simplify_map_eq; by rewrite ?Hu.
Qed.

Lemma is_user_insert u (s : gset string) g x :
  is_user (<[u := s]> g) x ↔ x = u ∨ is_user g x.
Proof.
  unfold is_user. destruct (decide (x = u)) as [->|]; simplify_map_eq; naive_solver.
Qed.

Lemma exec_all_snoc cs c w : exec_all (cs ++ [c]) w = exec c (exec_all cs w).
Proof. unfold exec_all. by rewrite foldl_app. Qed.

(** Induction over the calls that built a reachable state. *)
Lemma reachable_ind (P : World → Prop) :
  P empty_world →
  (∀ w c, reachable w → P w → P (exec c w)) →
  ∀ w, reachable w → P w.
Proof.
  intros H0 Hstep w [cs ->].
  induction cs as [|c cs IH] using rev_ind; [done|].
  rewrite exec_all_snoc. apply Hstep; [by eexists|done].
Qed.

Lemma symmetric_addUser u w : symmetric (adj w) → symmetric (adj (run (addUser u) w)).
Proof.
  intros Hs. rewrite addUser_adj. case_decide; [|done].
  intros x y. by rewrite !neighbors_insert_empty.
Qed.

Lemma symmetric_addFriendship a b w :
  symmetric (adj w) → symmetric (adj (run (addFriendship a b) w)).
Proof.
  intros Hs. rewrite addFriendship_adj. case_decide; [|done].
  intros x y. rewrite !neighbors_adj_insert. specialize (Hs x y).
  repeat case_decide; set_solver.
Qed.

Lemma closed_addUser u w : closed (adj w) → closed (adj (run (addUser u) w)).
Proof.
  intros Hc. rewrite addUser_adj. case_decide; [|done].
  intros x y. rewrite neighbors_insert_empty by done.
  intros Hy%Hc. apply is_user_insert. by right.
Qed.

Lemma closed_addFriendship a b w :
  closed (adj w) → closed (adj (run (addFriendship a b) w)).
Proof.
  intros Hc. rewrite addFriendship_adj. case_decide as Hab; [|done].
  destruct Hab as [Ha Hb].
  intros x y. rewrite !neighbors_adj_insert, !is_user_adj_insert.
  specialize (Hc x y). pose proof (Hc0 := Hc).
  repeat case_decide; subst; set_unfold; naive_solver.
Qed.

Lemma no_self_loop_addUser u w :
  no_self_loop (adj w) → no_self_loop (adj (run (addUser u) w)).
Proof.
  intros Hn. rewrite addUser_adj. case_decide; [|done].
  intros x. by rewrite neighbors_insert_empty.
Qed.

Lemma no_self_loop_addFriendship a b w :
  a ≠ b → no_self_loop (adj w) → no_self_loop (adj (run (addFriendship a b) w)).
Proof.
  intros Hab Hn. rewrite addFriendship_adj. case_decide; [|done].
  intros x. rewrite !neighbors_adj_insert. specialize (Hn x).
  repeat case_decide; set_solver.
Qed.

(** ** Claims about mutation *)

(** C4. [addFriendship a b] with [a] or [b] unknown reports the failure on
    [cout] ("One or both users do not exist.") and leaves [adj] as it was;
    with both known it adds [b] to the friends of [a] and [a] to the friends
    of [b], and touches no other entry. *)
Theorem addFriendship_unknown_or_both (a b : string) (w : World) :
  (¬ is_user (adj w) a ∨ ¬ is_user (adj w) b →
     adj (run (addFriendship a b) w) = adj w
     ∧ cout (run (addFriendship a b) w)
       = cout w ++ ["One or both users do not exist."])
  ∧ (is_user (adj w) a → is_user (adj w) b →
     let g' := adj (run (addFriendship a b) w) in
     neighbors g' a = {[b]} ∪ neighbors (adj w) a
     ∧ neighbors g' b = {[a]} ∪ neighbors (adj w) b
     ∧ (∀ x, x ≠ a → x ≠ b → g' !! x = adj w !! x)
     ∧ dom g' = dom (adj w)).
Proof.
  split.
  - intros Hno. split.
    + rewrite addFriendship_adj. case_decide; [tauto|done].
    + unfold addFriendship, is_user in *. unfold_M.
      destruct (adj w !! a) eqn:Ha; destruct (adj w !! b) eqn:Hb;
        repeat case_bool_decide; simpl; try done;
        destruct Hno as [[]|[]]; eauto.
  - intros Ha Hb g'. subst g'. rewrite addFriendship_adj.
    rewrite decide_True by done. repeat split.
    + rewrite !neighbors_adj_insert. repeat case_decide; set_solver.
    + rewrite !neighbors_adj_insert. repeat case_decide; set_solver.
    + intros x Hxa Hxb. by rewrite !lookup_adj_insert_ne.
    + apply set_eq. intros x. rewrite !elem_of_dom.
      fold (is_user (adj_insert b a (adj_insert a b (adj w))) x).
      fold (is_user (adj w) x).
      rewrite !is_user_adj_insert. naive_solver.
Qed.

Lemma addFriendship_unknown_or_both_witness :
  adj (run (addFriendship "Alice" "Nobody") demo) = adj demo
  ∧ neighbors (adj (run (addFriendship "Alice" "Grace") demo)) "Grace"
    = {["Alice"]} ∪ neighbors (adj demo) "Grace".
Proof.
  split.
  - apply (proj1 (addFriendship_unknown_or_both "Alice" "Nobody" demo)).
    right. intros [s Hs]. vm_compute in Hs. discriminate Hs.
  - apply (proj2 (addFriendship_unknown_or_both "Alice" "Grace" demo));
      unfold is_user; vm_compute; eauto.
Defined.

(** C5. The friend relation is symmetric and every friend is a user, in the
    empty network and after every call; hence in every reachable state. *)
Theorem invariants_preserved :
  (symmetric (adj empty_world) ∧ closed (adj empty_world))
  ∧ (∀ w c, symmetric (adj w) ∧ closed (adj w) →
            symmetric (adj (exec c w)) ∧ closed (adj (exec c w)))
  ∧ (∀ w, reachable w → symmetric (adj w) ∧ closed (adj w)).
Proof.
  assert (symmetric (adj empty_world) ∧ closed (adj empty_world)) as H0.
  { split; intros u v; unfold neighbors; simpl; rewrite lookup_empty; set_solver. }
  assert (∀ w c, symmetric (adj w) ∧ closed (adj w) →
                 symmetric (adj (exec c w)) ∧ closed (adj (exec c w))) as Hstep.
  { intros w [u|a b] [Hs Hc]; simpl;
      eauto using symmetric_addUser, closed_addUser,
                  symmetric_addFriendship, closed_addFriendship. }
  split; [done|]. split; [done|].
  apply reachable_ind; [done|]. intros w c _ IH. by apply Hstep.
Qed.

Lemma invariants_preserved_witness :
  symmetric (adj demo) ∧ closed (adj demo).
Proof.
  apply (proj2 (proj2 invariants_preserved)).
  exists ((AddUser <$> ["Alice"; "Bob"; "Charlie"; "David"; "Eve"; "Frank"; "Grace"; "Heidi"])
          ++ [AddFriendship "Alice" "Bob"; AddFriendship "Alice" "Charlie";
              AddFriendship "Bob" "David"; AddFriendship "Charlie" "David";
              AddFriendship "Charlie" "Eve"; AddFriendship "David" "Eve";
              AddFriendship "Eve" "Frank"; AddFriendship "Frank" "Heidi"]).
  vm_compute. reflexivity.
Defined.

Definition self_friendship (c : call) : Prop :=
  match c with
  | AddFriendship a b => a = b
  | AddUser _ => False
  end.

(** C6, as stated, fails: [addFriendship a a] stores [a] among its own friends. *)
Lemma self_loop_counterexample :
  ¬ (∀ cs, no_self_loop (adj (exec_all cs empty_world))).
Proof.
  intros H. apply (H [AddUser "a"; AddFriendship "a" "a"] "a").
  apply (bool_decide_unpack _). by vm_compute.
Qed.

(** C6, amended. No call other than a self-friendship [addFriendship a a]
    creates a self-loop: after calls none of which befriends a user with
    itself, no user is among its own friends. *)
Theorem no_self_loop_without_self_friendship (cs : list call) :
  Forall (λ c, ¬ self_friendship c) cs →
  no_self_loop (adj (exec_all cs empty_world)).
Proof.
  induction cs as [|c cs IH] using rev_ind; intros Hcs.
  - intros u. unfold neighbors. simpl. rewrite lookup_empty. set_solver.
  - rewrite Forall_app, Forall_singleton in Hcs. destruct Hcs as [Hcs Hc].
    rewrite exec_all_snoc. specialize (IH Hcs).
    destruct c as [u|a b]; simpl.
    + by apply no_self_loop_addUser.
    + apply no_self_loop_addFriendship; [|done]. intros ->. by apply Hc.
Qed.

Lemma no_self_loop_without_self_friendship_witness :
  no_self_loop (adj (exec_all [AddUser "a"; AddUser "b"; AddFriendship "a" "b"] empty_world)).
Proof.
  apply no_self_loop_without_self_friendship.
  repeat constructor; simpl; first [tauto | discriminate].
Defined.

Lemma addUser_known u w : is_user (adj w) u → addUser u w = (tt, w).
Proof.
  intros [s Hs]. unfold addUser. unfold_M.
  rewrite bool_decide_eq_false_2; [done|]. by rewrite Hs.
Qed.

Lemma addUser_unknown u w :
  adj w !! u = None →
  addUser u w
  = (tt, mkWorld (<[u := ∅]> (adj w))
                 (cout w ++ ["User " +:+ quoted u +:+ " added."])).
Proof.
  intros Hu. unfold addUser. unfold_M. by rewrite bool_decide_eq_true_2.
Qed.

Lemma getFriends_value u w : (getFriends u w).1 = neighbors (adj w) u.
Proof.
  unfold getFriends, neighbors. unfold_M. by destruct (adj w !! u).
Qed.

(** C9. A second [addUser u] changes nothing at all; [getFriends u] answers
    the same before and after; and on a known user [addUser] returns at
    once, with no output. *)
Theorem addUser_idempotent (u : string) (w : World) :
  run (addUser u) (run (addUser u) w) = run (addUser u) w
  ∧ (getFriends u (run (addUser u) (run (addUser u) w))).1 = (getFriends u w).1
  ∧ (is_user (adj w) u → addUser u w = (tt, w)).
Proof.
  split; [|split; [|apply addUser_known]].
  - unfold run. destruct (adj w !! u) as [s|] eqn:E.
    + assert (is_user (adj w) u) as Hu by (unfold is_user; eauto).
      rewrite (addUser_known u w Hu). simpl. by rewrite (addUser_known u w Hu).
    + rewrite (addUser_unknown u w E). simpl.
      rewrite addUser_known; [done|]. simpl. apply is_user_insert. by left.
  - rewrite !getFriends_value. unfold run.
    destruct (adj w !! u) as [s|] eqn:E.
    + assert (is_user (adj w) u) as Hu by (unfold is_user; eauto).
      rewrite (addUser_known u w Hu). simpl. by rewrite (addUser_known u w Hu).
    + rewrite (addUser_unknown u w E). simpl.
      rewrite addUser_known by (simpl; apply is_user_insert; by left).
      simpl. by apply neighbors_insert_empty.
Qed.

Lemma addUser_idempotent_witness : addUser "Alice" demo = (tt, demo).
Proof.
  apply (proj2 (proj2 (addUser_idempotent "Alice" demo))).
  unfold is_user. vm_compute. eauto.
Defined.

(** C10. None of the five queries writes to [adj], whatever the arguments. *)
Theorem queries_leave_adj (w : World) :
  (∀ u, adj (run (getFriends u) w) = adj w)
  ∧ (∀ a b, adj (run (getMutualFriends a b) w) = adj w)
  ∧ (∀ u, adj (run (suggestFriends u) w) = adj w)
  ∧ (∀ s e, adj (run (shortestPathBFS s e) w) = adj w)
  ∧ (∀ s e, adj (run (shortestPathDijkstra s e) w) = adj w).
Proof.
  repeat split; intros.
  - unfold getFriends. unfold_M. by destruct (adj w !! u).
  - unfold getMutualFriends. unfold_M.
    by destruct (adj w !! a), (adj w !! b).
  - unfold suggestFriends. unfold_M. by destruct (adj w !! u).
  - unfold shortestPathBFS. unfold_M.
    repeat (case_bool_decide; [done|]).
    destruct (BFS.init (adj w)) as [d p].
    destruct (BFS.while _ _ _ _) as [st| |]; [|done..].
    destruct (BFS.found st); [|done].
    by destruct (BFS.rebuild _ _ _ _).
  - unfold shortestPathDijkstra. unfold_M.
    repeat (case_bool_decide; [done|]).
    destruct (Dijkstra.init (adj w)) as [d p].
    destruct (Dijkstra.while _ _ _ _) as [st| |]; [|done..].
    destruct (Dijkstra.found st); [|done].
    by destruct (Dijkstra.rebuild _ _ _ _).
Qed.

(** ** Mutual friends *)

Lemma ascending_cons_inv x l :
  ascending (x :: l) → ascending l ∧ ∀ y, y ∈ l → string_lt x y = true.
Proof.
  intros H. apply StronglySorted_inv in H as [H1 H2].
  split; [done|]. by apply Forall_forall.
Qed.

Lemma elem_of_set_intersection l1 l2 x :
  ascending l1 → ascending l2 →
  x ∈ set_intersection l1 l2 ↔ x ∈ l1 ∧ x ∈ l2.
Proof.
  revert l2. induction l1 as [|x1 l1 IH1]; intros l2 H1 H2.
  { destruct l2; simpl; set_solver. }
  induction l2 as [|y l2 IH2].
  { simpl. set_solver. }
  apply ascending_cons_inv in H1 as [H1 Hx1].
  pose proof (ascending_cons_inv _ _ H2) as [H2' Hy].
  assert (string_lt x1 x1 = false) as Hirr1.
  { destruct (string_lt x1 x1) eqn:E; [|done]. by apply string_lt_ne in E. }
  simpl. destruct (string_lt x1 y) eqn:Exy.
  - rewrite (IH1 (y :: l2)) by done.
    assert (x1 ∉ y :: l2) as Hn.
    { intros [->|Hin]%elem_of_cons; [congruence|].
      apply Hy in Hin. apply string_lt_asym in Hin. congruence. }
    set_solver.
  - destruct (string_lt y x1) eqn:Eyx.
    + change ((fix go (l2 : list string) : list string :=
                 match l2 with
                 | [] => []
                 | y :: l2' =>
                     if string_lt x1 y then set_intersection l1 l2
                     else if string_lt y x1 then go l2'
                          else x1 :: set_intersection l1 l2'
                 end) l2) with (set_intersection (x1 :: l1) l2).
      rewrite IH2 by done.
      assert (y ∉ x1 :: l1) as Hn.
      { intros [->|Hin]%elem_of_cons; [congruence|].
        apply Hx1 in Hin. apply string_lt_asym in Hin. congruence. }
      set_solver.
    + assert (x1 = y) as <- by (by apply string_lt_total).
      rewrite elem_of_cons. rewrite (IH1 l2) by done.
      assert (x1 ∉ l1) as Hn1.
      { intros Hin%Hx1. congruence. }
      assert (x1 ∉ l2) as Hn2.
      { intros Hin%Hy. congruence. }
      set_solver.
Qed.

Lemma getMutualFriends_users a b w sa sb :
  adj w !! a = Some sa → adj w !! b = Some sb →
  (getMutualFriends a b w).1 = sa ∩ sb.
Proof.
  intros Ha Hb. unfold getMutualFriends. unfold_M. rewrite Ha, Hb. simpl.
  apply set_eq. intros x.
  rewrite elem_of_list_to_set, elem_of_set_intersection
    by apply ascending_set_iter.
  rewrite !elem_of_set_iter. set_solver.
Qed.

(** C7, as stated, fails: after [addFriendship a a] and [addFriendship a b]
    the user [a] is a friend of both [a] and [b]. *)
Lemma mutual_contains_self_counterexample :
  reachable self_friend_world
  ∧ is_user (adj self_friend_world) "a" ∧ is_user (adj self_friend_world) "b"
  ∧ "a" ∈ (getMutualFriends "a" "b" self_friend_world).1.
Proof.
  split; [by eexists|]. unfold is_user.
  split; [vm_compute; eauto|]. split; [vm_compute; eauto|].
  apply (bool_decide_unpack _). by vm_compute.
Qed.

(** C7, amended. For users [a] and [b], [getMutualFriends a b] is the
    intersection of their friend sets and does not depend on the order of
    the arguments; it contains neither [a] nor [b] when the graph has no
    self-loop (which holds when no user was befriended with itself). *)
Theorem getMutualFriends_intersection (a b : string) (w : World) :
  is_user (adj w) a → is_user (adj w) b →
  (getMutualFriends a b w).1 = neighbors (adj w) a ∩ neighbors (adj w) b
  ∧ (getMutualFriends a b w).1 = (getMutualFriends b a w).1
  ∧ (no_self_loop (adj w) →
     (a ∉ (getMutualFriends a b w).1) ∧ (b ∉ (getMutualFriends a b w).1)).
Proof.
  intros [sa Ha] [sb Hb].
  rewrite (getMutualFriends_users a b w sa sb), (getMutualFriends_users b a w sb sa)
    by done.
  unfold no_self_loop, neighbors. rewrite Ha, Hb. simpl.
  split; [done|]. split; [set_solver|].
  intros Hn. pose proof (Hn a) as Hna. pose proof (Hn b) as Hnb.
  rewrite Ha in Hna. rewrite Hb in Hnb. simpl in *. set_solver.
Qed.

Lemma getMutualFriends_intersection_witness :
  (getMutualFriends "Alice" "David" demo).1
  = neighbors (adj demo) "Alice" ∩ neighbors (adj demo) "David".
Proof.
  apply (getMutualFriends_intersection "Alice" "David" demo);
    unfold is_user; vm_compute; eauto.
Defined.

(** * The two searches *)

Section search.
Context (g : gmap string (gset string)) (start : string) (unv : Z).

Lemma seen_inj dist x d d' : seen unv dist x d → seen unv dist x d' → d = d'.
Proof. intros [H1 _] [H2 _]. congruence. Qed.

Lemma seen_insert dist v c x d :
  dist !! v = Some unv → c ≠ unv →
  seen unv (<[v := c]> dist) x d ↔ (x = v ∧ d = c) ∨ seen unv dist x d.
Proof.
  intros Hv Hc. unfold seen.
  destruct (decide (x = v)) as [->|Hne].
  - rewrite lookup_insert_eq. split.
    + intros [[= <-] _]. by left.
    + intros [[_ ->]|[H1 H2]]; [done|]. congruence.
  - rewrite lookup_insert_ne by done. naive_solver.
Qed.

Lemma hops_is_user u n x : hops g u n x → is_user g x.
Proof. destruct 1 as [|n v x _ [_ Hx]]; done. Qed.

Lemma hops_O_inv u x : hops g u O x → x = u.
Proof. by inversion 1. Qed.

(** The state before the first iteration. *)
Lemma frontier_init dist :
  is_user g start → unv ≠ 0 →
  dist !! start = Some 0 →
  (∀ x, x ≠ start → dist !! x = if decide (is_user g x) then Some unv else None) →
  frontier_inv g start unv 0 [start] start [] dist [start].
Proof.
  intros Hs Hunv H0 Hrest.
  assert (∀ x d, seen unv dist x d → x = start ∧ d = 0) as Hseen.
  { intros x d [Hx Hd]. destruct (decide (x = start)) as [->|Hne].
    - split; congruence.
    - rewrite Hrest in Hx by done. case_decide; congruence. }
  assert (seen unv dist start 0) as Hs0 by done.
  split.
  - intros x. destruct (decide (x = start)) as [->|Hne].
    + rewrite H0. split; eauto.
    + rewrite Hrest by done. case_decide; split; try done; by intros [? ?].
  - done.
  - intros x d [-> ->]%Hseen. split; [done|]. by constructor.
  - intros x d n [-> ->]%Hseen _. lia.
  - intros n x Hh Hn. assert (n = O) as -> by lia.
    apply hops_O_inv in Hh as ->. eauto.
  - intros x ->%list_elem_of_singleton. by left.
  - intros x d [-> ->]%Hseen. lia.
  - done.
  - intros y Hy. by apply elem_of_nil in Hy.
  - intros x y d [-> ->]%Hseen Hx. destruct Hx. by apply list_elem_of_singleton.
  - apply NoDup_singleton.
  - intros x. rewrite list_elem_of_singleton. split.
    + intros ->. eauto.
    + by intros [d [-> _]%Hseen].
  - intros x d [-> ->]%Hseen. simpl. lia.
Qed.

(** The neighbour at the head of [todo] was not reached before: it is
    recorded one level below [h] and joins the frontier. *)
Lemma frontier_visit k F F' h v todo dist vs :
  frontier_inv g start unv k F h (v :: todo) dist vs →
  dist !! v = Some unv →
  k + 1 ≠ unv →
  (∀ x, x ∈ F' ↔ x ∈ F ∨ x = v) →
  frontier_inv g start unv k F' h todo (<[v := k + 1]> dist) (v :: vs).
Proof.
  intros I Hv Hk HF'.
  assert (∀ x d, seen unv (<[v := k + 1]> dist) x d ↔ (x = v ∧ d = k + 1) ∨ seen unv dist x d)
    as Hseen by (intros; by apply seen_insert).
  assert (∀ d, ¬ seen unv dist v d) as Hunseen.
  { intros d [H1 H2]. congruence. }
  assert (is_user g v) as Huv by (apply (fi_dom I); eauto).
  assert (edge g h v) as Hedge.
  { split; [|done]. apply (fi_todo I). by left. }
  pose proof (fi_cur I) as Hcur.
  pose proof (fi_k I) as Hk0.
  assert (v ∉ vs) as Hvs.
  { intros [d Hd]%(fi_vs I). by apply Hunseen in Hd. }
  split.
  - intros x. rewrite <-(fi_dom I).
    destruct (decide (x = v)) as [->|Hne].
    + rewrite lookup_insert_eq, Hv. split; eauto.
    + by rewrite lookup_insert_ne.
  - done.
  - intros x d [[-> ->]|Hx]%Hseen.
    + split; [lia|].
      replace (Z.to_nat (k + 1)) with (S (Z.to_nat k)) by lia.
      econstructor; [|done]. by apply (fi_walk I).
    + by apply (fi_walk I).
  - intros x d n [[-> ->]|Hx]%Hseen Hh.
    + destruct (decide (Z.of_nat n ≤ k)) as [Hle|]; [|lia].
      destruct (fi_level I n v Hh Hle) as [d Hd].
      by apply Hunseen in Hd.
    + by apply (fi_min I x).
  - intros n x Hh Hn.
    destruct (fi_level I n x Hh Hn) as [d Hd].
    exists d. apply Hseen. by right.
  - intros x [Hx| ->]%HF'.
    + destruct (fi_front I x Hx); [left|right];
        apply Hseen; by right.
    + right. apply Hseen. by left.
  - intros x d [[-> ->]|Hx]%Hseen; [lia|].
    by apply (fi_upper I x).
  - apply Hseen. by right.
  - intros y Hy. apply (fi_todo I). by right.
  - intros x y d Hx HxF Hxy.
    assert ((x ∉ F) ∧ x ≠ v) as [HxF0 Hxv].
    { split; intros ?; apply HxF, HF'; auto. }
    apply Hseen in Hx as [[-> _]|Hx]; [done|].
    destruct (fi_proc I x y d Hx HxF0 Hxy)
      as [[d' Hd']|[-> [->|Hy]%elem_of_cons]].
    + left. exists d'. apply Hseen. by right.
    + left. exists (k + 1). apply Hseen. by left.
    + by right.
  - apply NoDup_cons. split; [done|]. by apply (fi_nodup I).
  - intros x. rewrite elem_of_cons. rewrite (fi_vs I). split.
    + intros [->|[d Hd]]; [exists (k + 1)|exists d]; apply Hseen; auto.
    + intros [d [[-> ->]|Hx]%Hseen]; eauto.
  - intros x d [[-> ->]|Hx]%Hseen; simpl.
    + pose proof (fi_count I h k Hcur). lia.
    + pose proof (fi_count I x d Hx). lia.
Qed.

(** The neighbour at the head of [todo] is no user, or was reached
    before: nothing changes. *)
Lemma frontier_skip k F h v todo dist vs :
  frontier_inv g start unv k F h (v :: todo) dist vs →
  dist !! v ≠ Some unv →
  frontier_inv g start unv k F h todo dist vs.
Proof.
  intros I Hv. destruct I. split; try done.
  - intros y Hy. apply fi_todo0. by right.
  - intros x y d Hx HxF Hxy.
    destruct (fi_proc0 x y d Hx HxF Hxy) as [?|[-> [->|Hy]%elem_of_cons]]; auto.
    left. destruct Hxy as [_ [d' Hd']%fi_dom0].
    exists d'. split; [done|]. congruence.
Qed.

(** A user of least distance leaves the frontier and becomes the one
    being expanded. *)
Lemma frontier_pop k F F' h0 h todo dist vs :
  frontier_inv g start unv k F h0 [] dist vs →
  h ∈ F →
  (∀ x d dh, x ∈ F → seen unv dist x d → seen unv dist h dh → dh ≤ d) →
  (∀ x, x ∈ F → x = h ∨ x ∈ F') →
  (∀ x, x ∈ F' → x ∈ F) →
  (∀ y, y ∈ todo ↔ y ∈ neighbors g h) →
  ∃ k', frontier_inv g start unv k' F' h todo dist vs.
Proof.
  intros I Hh Hleast Hsub1 Hsub2 Htodo.
  assert (∀ x y d, seen unv dist x d → x ∉ F' → edge g x y →
                   (x ≠ h → x ∉ F) ∧ (x = h → y ∈ todo)) as Haux.
  { intros x y d Hx HxF' Hxy. split.
    - intros Hne HxF. destruct (Hsub1 x HxF); done.
    - intros ->. apply Htodo. by destruct Hxy. }
  destruct (fi_front I h Hh) as [Hk|Hk1].
  - exists k. destruct I. split; try done.
    + intros x Hx. apply fi_front0. auto.
    + intros y Hy. by apply Htodo.
    + intros x y d Hx HxF' Hxy.
      destruct (Haux x y d Hx HxF' Hxy) as [H1 H2].
      destruct (decide (x = h)) as [->|Hne]; [right; auto|].
      destruct (fi_proc0 x y d Hx (H1 Hne) Hxy) as [?|[_ Hy]]; [by left|].
      by apply elem_of_nil in Hy.
  - assert (∀ x, x ∈ F → seen unv dist x (k + 1)) as Hall.
    { intros x Hx. destruct (fi_front I x Hx) as [Hxk|]; [|done].
      pose proof (Hleast x k (k + 1) Hx Hxk Hk1). lia. }
    exists (k + 1). destruct I. split; try done.
    + lia.
    + intros n x Hhops Hn.
      destruct (decide (Z.of_nat n ≤ k)) as [Hle|Hgt]; [by eapply fi_level0|].
      destruct Hhops as [|n v x Hv Hvx]; [lia|].
      destruct (fi_level0 n v Hv ltac:(lia)) as [d Hd].
      pose proof (fi_min0 v d n Hd Hv) as Hdn.
      assert (v ∉ F) as HvF.
      { intros HvF. apply Hall in HvF.
        pose proof (seen_inj _ _ _ _ Hd HvF). lia. }
      destruct (fi_proc0 v x d Hd HvF Hvx) as [?|[_ Hy]]; [done|].
      by apply elem_of_nil in Hy.
    + intros x Hx. left. apply Hall. auto.
    + intros x d Hx. pose proof (fi_upper0 x d Hx). lia.
    + intros y Hy. by apply Htodo.
    + intros x y d Hx HxF' Hxy.
      destruct (Haux x y d Hx HxF' Hxy) as [H1 H2].
      destruct (decide (x = h)) as [->|Hne]; [right; auto|].
      destruct (fi_proc0 x y d Hx (H1 Hne) Hxy) as [?|[_ Hy]]; [by left|].
      by apply elem_of_nil in Hy.
Qed.

(** With nothing left to expand, every user connected to [start] was
    reached. *)
Lemma frontier_closed k h dist vs n x :
  frontier_inv g start unv k [] h [] dist vs →
  hops g start n x → ∃ d, seen unv dist x d.
Proof.
  intros I. induction 1 as [Hs|n v x Hv [d Hd] Hvx].
  - apply (fi_level I O); [by constructor|]. pose proof (fi_k I). lia.
  - destruct (fi_proc I v x d Hd ltac:(apply not_elem_of_nil) Hvx)
      as [?|[_ Hy]]; [done|].
    by apply elem_of_nil in Hy.
Qed.

(** The users reached are users, so they are no more than [size g]. *)
Lemma frontier_reached_le k F h todo dist vs :
  frontier_inv g start unv k F h todo dist vs →
  (length vs ≤ size g)%nat.
Proof.
  intros I.
  rewrite <-(size_dom (D := gset string)), <-(size_list_to_set (C := gset string) vs)
    by apply (fi_nodup I).
  apply subseteq_size. intros x Hx%elem_of_list_to_set.
  apply (fi_vs I) in Hx as [d [Hx _]]. apply elem_of_dom.
  apply (fi_dom I). eauto.
Qed.

(** A user not reached yet leaves room for one more. *)
Lemma frontier_room k F h todo dist vs v :
  frontier_inv g start unv k F h todo dist vs →
  dist !! v = Some unv →
  (S (length vs) ≤ size g)%nat.
Proof.
  intros I Hv.
  assert (v ∉ vs) as Hvs.
  { intros [d [H1 H2]]%(fi_vs I). congruence. }
  assert (NoDup (v :: vs)) as Hnd.
  { apply NoDup_cons. split; [done|]. apply (fi_nodup I). }
  change (S (length vs)) with (length (v :: vs)).
  rewrite <-(size_dom (D := gset string)), <-(size_list_to_set (C := gset string) (v :: vs))
    by done.
  apply subseteq_size. intros x Hx%elem_of_list_to_set.
  apply elem_of_dom. apply (fi_dom I).
  apply elem_of_cons in Hx as [->|Hx]; [eauto|].
  apply (fi_vs I) in Hx as [d [Hx _]]. eauto.
Qed.
End search.

(** ** Machine arithmetic stays in range *)

Lemma int_add_small a b :
  -2147483648 ≤ a + b ≤ INT_MAX → int_add a b = a + b.
Proof.
  unfold int_add, wrap_int, INT_MAX. intros H.
  rewrite Z.mod_small by lia. lia.
Qed.

Lemma subscript_present {V} (dflt : V) (m : gmap string V) k v :
  m !! k = Some v → subscript dflt m k = (v, m).
Proof. intros H. unfold subscript. by rewrite H. Qed.

(** ** The initialisation loops *)

Lemma elem_of_map_iter {V} (m : gmap string V) k v :
  (k, v) ∈ map_iter m ↔ m !! k = Some v.
Proof.
  unfold map_iter. rewrite merge_sort_Permutation. apply elem_of_map_to_list.
Qed.

Lemma init_fold_lookup {V} (c : Z) (l : list (string * V)) d0 p0 x :
  let r := foldl (λ (dp : gmap string Z * gmap string string) (pair : string * V),
                    (<[pair.1 := c]> dp.1, <[pair.1 := String.EmptyString]> dp.2))
                 (d0, p0) l in
  r.1 !! x = (if decide (x ∈ l.*1) then Some c else d0 !! x)
  ∧ r.2 !! x = (if decide (x ∈ l.*1) then Some String.EmptyString else p0 !! x).
Proof.
  cbv zeta. revert d0 p0. induction l as [|[k v] l IH]; intros d0 p0.
  { rewrite decide_False by apply not_elem_of_nil. done. }
  cbn [foldl fst snd].
  destruct (IH (<[k := c]> d0) (<[k := String.EmptyString]> p0)) as [IH1 IH2].
  rewrite IH1, IH2, fmap_cons. cbn [fst].
  destruct (decide (x ∈ k :: l.*1)) as [Hin|Hin];
    destruct (decide (x ∈ l.*1)) as [Hin'|Hin']; try done.
  - apply elem_of_cons in Hin as [->|?]; [|done]. by rewrite !lookup_insert_eq.
  - destruct Hin. by right.
  - rewrite !lookup_insert_ne; [done| |]; intros ->; apply Hin; by left.
Qed.

Lemma elem_of_map_iter_keys {V} (m : gmap string V) x :
  x ∈ (map_iter m).*1 ↔ is_Some (m !! x).
Proof.
  rewrite list_elem_of_fmap. split.
  - intros [[k v] [-> H%elem_of_map_iter]]. eauto.
  - intros [v Hv]. exists (x, v). split; [done|]. by apply elem_of_map_iter.
Qed.

Lemma bfs_init_lookup g x :
  (BFS.init g).1 !! x = (if decide (is_user g x) then Some (-1) else None)
  ∧ (BFS.init g).2 !! x
    = (if decide (is_user g x) then Some String.EmptyString else None).
Proof.
  unfold BFS.init.
  destruct (init_fold_lookup (-1) (map_iter g) ∅ ∅ x) as [H1 H2].
  cbv zeta in *. rewrite H1, H2, !lookup_empty.
  unfold is_user. split; repeat case_decide; try done;
    exfalso; rewrite elem_of_map_iter_keys in *; done.
Qed.

Lemma dijkstra_init_lookup g x :
  (Dijkstra.init g).1 !! x = (if decide (is_user g x) then Some INF else None)
  ∧ (Dijkstra.init g).2 !! x
    = (if decide (is_user g x) then Some String.EmptyString else None).
Proof.
  unfold Dijkstra.init.
  destruct (init_fold_lookup INF (map_iter g) ∅ ∅ x) as [H1 H2].
  cbv zeta in *. rewrite H1, H2, !lookup_empty.
  unfold is_user. split; repeat case_decide; try done;
    exfalso; rewrite elem_of_map_iter_keys in *; done.
Qed.


(** ** The loops of [shortestPathBFS] *)

Lemma parent_inv_visit g unv start dist parent h v k :
  parent_inv g unv start dist parent →
  dist !! v = Some unv → k + 1 ≠ unv →
  seen unv dist h k → seen unv dist start 0 → edge g h v →
  parent_inv g unv start (<[v := k + 1]> dist) (<[v := h]> parent).
Proof.
  intros [Hp0 Hp] Hv Hk Hh Hs Hhv.
  assert (v ≠ start) as Hvs.
  { intros ->. destruct Hs as [H1 H2]. congruence. }
  split; [by rewrite lookup_insert_ne|].
  intros x d [[-> ->]|Hx]%seen_insert Hxs; try done.
  - exists h. rewrite lookup_insert_eq. split; [done|].
    replace (k + 1 - 1) with k by lia. split; [|done]. apply seen_insert; auto.
  - assert (x ≠ v) as Hxv.
    { intros ->. destruct Hx as [H1 H2]. congruence. }
    destruct (Hp x d Hx Hxs) as (p & Hpx & Hpd & Hpe).
    exists p. rewrite lookup_insert_ne by done. split; [done|].
    split; [|done]. apply seen_insert; auto.
Qed.

(** Walking the parents back from a reached user ends. *)
Lemma bfs_rebuild_returns g unv start dist parent fuel x d path :
  parent_inv g unv start dist parent →
  (∀ y e, seen unv dist y e → 0 ≤ e) →
  seen unv dist x d →
  (Z.to_nat d + 2 ≤ fuel)%nat →
  ∃ p, BFS.rebuild fuel parent x path = Returns p.
Proof.
  intros [Hp0 Hp] Hpos. revert x d path.
  induction fuel as [|fuel IH]; intros x d path Hx Hfuel; [lia|].
  cbn [BFS.rebuild]. case_bool_decide; [eauto|].
  destruct (decide (x = start)) as [->|Hxs].
  - rewrite (subscript_present _ _ _ _ Hp0).
    destruct fuel as [|fuel']; [lia|].
    cbn [BFS.rebuild]. rewrite bool_decide_eq_true_2 by done. eauto.
  - destruct (Hp x d Hx Hxs) as (p & Hpx & Hpd & _).
    rewrite (subscript_present _ _ _ _ Hpx).
    pose proof (Hpos _ _ Hpd). pose proof (Hpos _ _ Hx).
    apply (IH p (d - 1)); [done|lia].
Qed.

Lemma trail_snoc g l p x : trail g (l ++ [p]) → edge g p x → trail g (l ++ [p; x]).
Proof.
  intros Ht Hpx. induction l as [|a l IH]; simpl in *.
  - constructor; [done|]. constructor. by destruct Hpx.
  - destruct l as [|b l]; simpl in *.
    + inversion Ht; subst. constructor; [done|]. by apply IH.
    + inversion Ht; subst. constructor; [done|]. by apply IH.
Qed.

(** When no reached user has the empty name, the walk goes all the way
    back: it puts in front of [path] a trail of [d] edges from [start]
    to [x]. *)
Lemma bfs_rebuild_spec g unv start dist parent fuel x d path :
  parent_inv g unv start dist parent →
  seen unv dist start 0 → is_user g start →
  (∀ y e, seen unv dist y e → 0 ≤ e ∧ y ≠ String.EmptyString) →
  seen unv dist x d →
  (Z.to_nat d + 2 ≤ fuel)%nat →
  ∃ pre, BFS.rebuild fuel parent x path = Returns (pre ++ x :: path)
         ∧ head (pre ++ [x]) = Some start
         ∧ length pre = Z.to_nat d
         ∧ trail g (pre ++ [x]).
Proof.
  intros [Hp0 Hp] Hs0 Hus Hpos. revert x d path.
  induction fuel as [|fuel IH]; intros x d path Hx Hfuel; [lia|].
  cbn [BFS.rebuild]. destruct (Hpos x d Hx) as [Hd0 Hxne].
  rewrite bool_decide_eq_false_2 by done.
  destruct (decide (x = start)) as [->|Hxs].
  - rewrite (subscript_present _ _ _ _ Hp0).
    destruct fuel as [|fuel']; [lia|].
    cbn [BFS.rebuild]. rewrite bool_decide_eq_true_2 by done.
    pose proof (seen_inj _ _ _ _ _ Hx Hs0) as ->.
    exists []. repeat split; try done. by constructor.
  - destruct (Hp x d Hx Hxs) as (p & Hpx & Hpd & Hpe).
    rewrite (subscript_present _ _ _ _ Hpx).
    destruct (Hpos _ _ Hpd) as [Hd1 _].
    destruct (IH p (d - 1) (x :: path) Hpd ltac:(lia)) as (pre & Hr & Hh & Hl & Ht).
    exists (pre ++ [p]). rewrite <-!app_assoc. simpl.
    split; [done|]. split.
    { destruct pre; simpl in *; done. }
    split; [rewrite length_app; simpl; lia|].
    by apply trail_snoc.
Qed.

Section bfs.
Context (g : gmap string (gset string)) (start endUser : string).
Hypothesis Hsize : Z.of_nat (size g) ≤ INT_MAX.

Lemma frontier_start_seen unv k F h todo dist vs :
  is_user g start →
  frontier_inv g start unv k F h todo dist vs → seen unv dist start 0.
Proof.
  intros Hs I.
  destruct (fi_level I O start) as [d Hd]; [by constructor|apply (fi_k I)|].
  pose proof (fi_min I start d O Hd ltac:(by constructor)).
  pose proof (fi_walk I start d Hd) as [? _].
  by replace d with 0 in Hd by lia.
Qed.

Lemma bfs_explore_spec todo st n h :
  is_user g start →
  bfs_inv g start endUser n h todo st →
  let st' := BFS.explore endUser h todo st in
  search_found g (-1) start endUser (BFS.found st') (BFS.distance st') (BFS.parent st')
  ∨ bfs_inv g start endUser n h [] st'.
Proof.
  intros Hstart. revert st. induction todo as [|v todo IH]; intros st Hinv.
  { by right. }
  destruct Hinv as (k & vs & A & B & I & HAB & HA & HB & Hpar & Hf & Hd & Hend & Hn).
  cbn [BFS.explore]. case_bool_decide as Hv.
  - (* [v] is reached for the first time *)
    pose proof (fi_cur I) as Hcur. pose proof (fi_k I) as Hk0.
    pose proof (fi_count I h k Hcur) as Hcnt.
    pose proof (frontier_room _ _ _ _ _ _ _ _ _ _ I Hv) as Hroom.
    rewrite (subscript_present 0 (BFS.dist st) h k) by apply Hcur.
    rewrite int_add_small by lia.
    assert (k + 1 ≠ -1) as Hk1 by lia.
    assert (frontier_inv g start (-1) k (BFS.q st ++ [v]) h todo
              (<[v := k + 1]> (BFS.dist st)) (v :: vs)) as I'.
    { eapply frontier_visit; eauto.
      intros x. rewrite elem_of_app, list_elem_of_singleton. done. }
    assert (edge g h v) as Hhv.
    { split; [apply (fi_todo I); by left|]. apply (fi_dom I). eauto. }
    assert (parent_inv g (-1) start (<[v := k + 1]> (BFS.dist st))
              (<[v := h]> (BFS.parent st))) as Hpar'.
    { eapply parent_inv_visit; eauto using frontier_start_seen. }
    assert (seen (-1) (<[v := k + 1]> (BFS.dist st)) v (k + 1)) as Hvseen.
    { apply seen_insert; auto. }
    case_bool_decide as Hve.
    + (* it is [endUser]: [break] *)
      left. subst v.
      rewrite (subscript_present 0 _ endUser (k + 1)) by apply lookup_insert_eq.
      cbn [BFS.found BFS.distance BFS.parent].
      split; [done|]. split.
      * destruct (fi_walk I' endUser (k + 1) Hvseen) as [H1 H2].
        split; [done|]. split; [done|].
        intros m Hm. by apply (fi_min I' endUser).
      * exists (<[endUser := k + 1]> (BFS.dist st)).
        split; [done|]. split; [done|]. split; [lia|].
        split; [by eapply frontier_start_seen|].
        intros x d Hx. split; [by apply (fi_walk I' x d)|].
        apply (fi_dom I'). destruct Hx as [Hx _]. eauto.
    + apply IH. exists k, (v :: vs), A, (B ++ [v]).
      cbn [BFS.q BFS.dist BFS.parent BFS.found BFS.distance].
      split; [done|]. split; [by rewrite HAB, app_assoc|].
      split; [intros x Hx; apply seen_insert; auto|].
      split.
      { intros x [Hx| ->%list_elem_of_singleton]%elem_of_app; [|done].
        apply seen_insert; auto. }
      split; [done|]. split; [done|]. split; [done|]. split.
      { intros d [[? _]|Hx]%seen_insert; try done. by apply Hend in Hx. }
      rewrite length_app. simpl. lia.
  - (* [v] is no user or was reached before *)
    apply IH. exists k, vs, A, B.
    split; [by eapply frontier_skip|done].
Qed.

Lemma bfs_while_spec fuel st n h :
  is_user g start →
  bfs_inv g start endUser n h [] st →
  (n < fuel)%nat →
  ∃ st', BFS.while fuel g endUser st = Returns st'
         ∧ (search_found g (-1) start endUser
              (BFS.found st') (BFS.distance st') (BFS.parent st')
            ∨ (BFS.found st' = false ∧ BFS.distance st' = -1
               ∧ ¬ connected g start endUser)).
Proof.
  intros Hstart. revert st n h.
  induction fuel as [|fuel IH]; intros st n h Hinv Hfuel; [lia|].
  pose proof Hinv as (k & vs & A & B & I & HAB & HA & HB & Hpar & Hf & Hd & Hend & Hn).
  cbn [BFS.while]. destruct (BFS.q st) as [|cur q'] eqn:Hq.
  { (* the queue ran empty *)
    exists st. split; [done|]. right. split; [done|]. split; [done|].
    intros [m Hm]. destruct (frontier_closed _ _ _ _ _ _ _ _ _ I Hm) as [d Hd'].
    by apply Hend in Hd'. }
  rewrite Hf.
  assert (cur ∈ cur :: q') as Hcur by (by left).
  assert (is_user g cur) as [nbrs Hnbrs].
  { destruct (fi_front I cur Hcur) as [[H1 _]|[H1 _]]; apply (fi_dom I); eauto. }
  rewrite Hnbrs.
  remember (BFS.mk q' (BFS.parent st) (BFS.dist st) false (BFS.distance st))
    as st1 eqn:Est1.
  assert (bfs_inv g start endUser (pred n) cur (set_iter nbrs) st1) as Hinv1.
  { destruct (frontier_pop g start (-1) k (cur :: q') q' h cur (set_iter nbrs)
                (BFS.dist st) vs I Hcur) as [k' I'].
    - intros x d dh Hx Hxd Hcd.
      destruct A as [|a A'].
      + simpl in HAB. subst B.
        pose proof (seen_inj _ _ _ _ _ Hxd (HB x Hx)).
        pose proof (seen_inj _ _ _ _ _ Hcd (HB cur Hcur)). lia.
      + injection HAB as <- ->.
        pose proof (seen_inj _ _ _ _ _ Hcd (HA cur ltac:(by left))).
        destruct (fi_front I x Hx) as [Hx'|Hx'];
          pose proof (seen_inj _ _ _ _ _ Hxd Hx'); lia.
    - intros x Hx. by apply elem_of_cons in Hx.
    - intros x Hx. by right.
    - intros y. rewrite elem_of_set_iter. unfold neighbors. by rewrite Hnbrs.
    - pose proof (fi_cur I') as Hck'.
      destruct A as [|a A'].
      + simpl in HAB. subst B.
        pose proof (seen_inj _ _ _ _ _ Hck' (HB cur Hcur)) as ->.
        exists (k + 1), vs, q', []. subst st1. cbn.
        split; [done|]. split; [by rewrite app_nil_r|].
        split; [intros x Hx; apply HB; by right|].
        split; [intros x Hx; by apply elem_of_nil in Hx|].
        repeat (split; [done|]). simpl in Hn. lia.
      + injection HAB as <- ->.
        pose proof (seen_inj _ _ _ _ _ Hck' (HA cur ltac:(by left))) as ->.
        exists k, vs, A', B. subst st1. cbn.
        split; [done|]. split; [done|].
        split; [intros x Hx; apply HA; by right|].
        repeat (split; [done|]). simpl in Hn. lia. }
  assert (0 < n)%nat as Hn0 by (simpl in Hn; lia).
  pose proof (bfs_explore_spec _ _ _ _ Hstart Hinv1) as Hex. cbv zeta in Hex.
  remember (BFS.explore endUser cur (set_iter nbrs) st1) as st2 eqn:Est2.
  destruct Hex as [Hfound|Hinv2].
  - (* [endUser] was reached: the loop condition fails next *)
    destruct fuel as [|fuel']; [lia|].
    exists st2. split; [|left; exact Hfound].
    cbn [BFS.while]. destruct Hfound as [-> _]. by destruct (BFS.q st2).
  - eapply IH; [exact Hinv2|lia].
Qed.

End bfs.


Lemma shortestPathBFS_spec s e w :
  Z.of_nat (size (adj w)) ≤ INT_MAX →
  is_user (adj w) s → is_user (adj w) e → s ≠ e →
  path_answer "BFS" s e w (shortestPathBFS s e w).
Proof.
  intros Hsize Hs He Hse. unfold shortestPathBFS, path_answer. unfold_M.
  pose proof Hs as [ss Hss]. pose proof He as [se Hes].
  rewrite !bool_decide_eq_false_2 by (done || congruence).
  destruct (BFS.init (adj w)) as [dist parent] eqn:Hinit.
  assert (∀ x, dist !! x = (if decide (is_user (adj w) x) then Some (-1) else None)
               ∧ parent !! x
                 = (if decide (is_user (adj w) x) then Some String.EmptyString else None))
    as Hlook.
  { intros x. pose proof (bfs_init_lookup (adj w) x) as H. by rewrite Hinit in H. }
  set (st0 := BFS.mk [s] parent (<[s := 0]> dist) false (-1)).
  assert (frontier_inv (adj w) s (-1) 0 [s] s [] (<[s := 0]> dist) [s]) as I0.
  { apply frontier_init; [done|done|apply lookup_insert_eq|].
    intros x Hx. rewrite lookup_insert_ne by done. apply Hlook. }
  assert (∀ x d, seen (-1) (<[s := 0]> dist) x d → x = s) as Hseen.
  { intros x d [H1 H2]. destruct (decide (x = s)) as [|Hne]; [done|].
    rewrite lookup_insert_ne in H1 by done.
    rewrite (proj1 (Hlook x)) in H1. case_decide; congruence. }
  assert (bfs_inv (adj w) s e (size (adj w)) s [] st0) as Hinv.
  { exists 0, [s], [s], []. subst st0. cbn.
    split; [done|]. split; [done|]. split.
    { intros x ->%list_elem_of_singleton. apply (fi_cur I0). }
    split; [intros x Hx; by apply elem_of_nil in Hx|].
    split.
    { split.
      - rewrite (proj2 (Hlook s)). by rewrite decide_True.
      - intros x d Hx Hne. by apply Hseen in Hx. }
    split; [done|]. split; [done|]. split.
    { intros d Hd. apply Hseen in Hd. done. }
    pose proof (frontier_reached_le _ _ _ _ _ _ _ _ _ I0). simpl in *. lia. }
  destruct (bfs_while_spec (adj w) s e Hsize (S (size (adj w))) st0 _ _ Hs Hinv)
    as (st' & Hwhile & Hpost); [lia|].
  fold st0. rewrite Hwhile.
  destruct Hpost as [(Hf & Hmin & dist' & Hpar & Hend & Hlt & Hs0 & Hpos)|(Hf & Hd & Hnc)].
  - rewrite Hf. pose proof (proj1 Hmin) as Hd0.
    destruct (bfs_rebuild_returns (adj w) (-1) s dist' (BFS.parent st') (S (size (adj w)))
                e (BFS.distance st') [] Hpar (λ y d Hy, proj1 (Hpos y d Hy)) Hend)
      as [p Hp]; [lia|].
    rewrite Hp. left. eexists _, _. split; [reflexivity|]. split; [done|].
    split; [|done]. split.
    + intros Hempty.
      destruct (bfs_rebuild_spec (adj w) (-1) s dist' (BFS.parent st') (S (size (adj w)))
                  e (BFS.distance st') [] Hpar Hs0 Hs) as (pre & Hr & Hh & Hl & Ht);
        [|done|lia|].
      { intros y d Hy. destruct (Hpos y d Hy) as [? Hyu]. split; [done|].
        intros ->. by apply Hempty. }
      rewrite Hp in Hr. injection Hr as ->.
      split; [done|]. split; [done|]. split; [by rewrite last_snoc|].
      rewrite length_app, Hl. simpl. lia.
    + intros ->. destruct (size (adj w)); cbn in Hp; by injection Hp as <-.
  - rewrite Hf, Hd. right. split; [reflexivity|done].
Qed.


(** ** The priority queue *)

Lemma top_None l : Dijkstra.top l = None → l = [].
Proof.
  destruct l as [|x l]; [done|]. simpl.
  destruct (Dijkstra.top l) as [y|]; [|done]. by destruct (Dijkstra.pair_lt y x).
Qed.

Lemma top_elem l x : Dijkstra.top l = Some x → x ∈ l.
Proof.
  revert x. induction l as [|y l IH]; intros x; simpl; [done|].
  destruct (Dijkstra.top l) as [m|].
  - destruct (Dijkstra.pair_lt m y); intros [= <-]; [right; by apply IH|by left].
  - intros [= <-]. by left.
Qed.

Lemma pair_lt_fst x y : Dijkstra.pair_lt x y = true → x.1 ≤ y.1.
Proof.
  unfold Dijkstra.pair_lt. intros H.
  apply orb_true_iff in H as [H|H].
  - apply bool_decide_eq_true in H. lia.
  - apply andb_true_iff in H as [H _]. apply negb_true_iff in H.
    apply bool_decide_eq_false in H. lia.
Qed.

Lemma pair_lt_false_fst x y : Dijkstra.pair_lt x y = false → y.1 ≤ x.1.
Proof.
  unfold Dijkstra.pair_lt. intros H.
  apply orb_false_iff in H as [H _]. apply bool_decide_eq_false in H. lia.
Qed.

(** The top of the queue has the least distance in it. *)
Lemma top_least l x y : Dijkstra.top l = Some x → y ∈ l → x.1 ≤ y.1.
Proof.
  revert x. induction l as [|z l IH]; intros x; simpl; [done|].
  intros Htop Hy. destruct (Dijkstra.top l) as [m|] eqn:Hm.
  - destruct (Dijkstra.pair_lt m z) eqn:Hlt; injection Htop as <-.
    + apply elem_of_cons in Hy as [->|Hy]; [by apply pair_lt_fst|by apply IH].
    + apply elem_of_cons in Hy as [->|Hy]; [lia|].
      apply pair_lt_false_fst in Hlt. specialize (IH m eq_refl Hy). lia.
  - injection Htop as <-. apply top_None in Hm as ->.
    apply elem_of_cons in Hy as [->|Hy]; [lia|]. by apply elem_of_nil in Hy.
Qed.

Lemma elem_of_remove x l y : y ∈ Dijkstra.remove x l → y ∈ l.
Proof.
  induction l as [|z l IH]; simpl; [done|].
  case_decide; [by right|].
  intros [->|H']%elem_of_cons; [by left|right; auto].
Qed.

Lemma elem_of_remove_other x l y : y ∈ l → y = x ∨ y ∈ Dijkstra.remove x l.
Proof.
  induction l as [|z l IH]; simpl; [by intros ?%elem_of_nil|].
  intros [->|Hy]%elem_of_cons.
  - case_decide; [by left|right; by left].
  - case_decide; [by right|].
    destruct (IH Hy); [by left|right; by right].
Qed.

Lemma length_remove x l : x ∈ l → S (length (Dijkstra.remove x l)) = length l.
Proof.
  induction l as [|z l IH]; simpl; [by intros ?%elem_of_nil|].
  intros Hx. case_decide as Hxz; [done|].
  apply elem_of_cons in Hx as [->|Hx]; [done|]. simpl. by rewrite IH.
Qed.

(** ** The loops of [shortestPathDijkstra] *)

Lemma dijkstra_rebuild_returns g unv start dist parent fuel x d path :
  parent_inv g unv start dist parent →
  (∀ y e, seen unv dist y e → 0 ≤ e) →
  seen unv dist x d →
  (Z.to_nat d + 1 ≤ fuel)%nat →
  ∃ p, Dijkstra.rebuild fuel parent x path = Returns p.
Proof.
  intros [Hp0 Hp] Hpos. revert x d path.
  induction fuel as [|fuel IH]; intros x d path Hx Hfuel; [lia|].
  cbn [Dijkstra.rebuild]. case_bool_decide; [eauto|].
  destruct (decide (x = start)) as [->|Hxs].
  - rewrite Hp0. rewrite bool_decide_eq_true_2 by done. eauto.
  - destruct (Hp x d Hx Hxs) as (p & Hpx & Hpd & _). rewrite Hpx.
    case_bool_decide; [eauto|].
    pose proof (Hpos _ _ Hpd). pose proof (Hpos _ _ Hx).
    apply (IH p (d - 1)); [done|lia].
Qed.

Lemma dijkstra_rebuild_spec g unv start dist parent fuel x d path :
  parent_inv g unv start dist parent →
  seen unv dist start 0 → is_user g start →
  (∀ y e, seen unv dist y e → 0 ≤ e ∧ y ≠ String.EmptyString) →
  seen unv dist x d →
  (Z.to_nat d + 1 ≤ fuel)%nat →
  ∃ pre, Dijkstra.rebuild fuel parent x path = Returns (pre ++ x :: path)
         ∧ head (pre ++ [x]) = Some start
         ∧ length pre = Z.to_nat d
         ∧ trail g (pre ++ [x]).
Proof.
  intros [Hp0 Hp] Hs0 Hus Hpos. revert x d path.
  induction fuel as [|fuel IH]; intros x d path Hx Hfuel; [lia|].
  cbn [Dijkstra.rebuild]. destruct (Hpos x d Hx) as [Hd0 Hxne].
  rewrite bool_decide_eq_false_2 by done.
  destruct (decide (x = start)) as [->|Hxs].
  - rewrite Hp0. rewrite bool_decide_eq_true_2 by done.
    pose proof (seen_inj _ _ _ _ _ Hx Hs0) as ->.
    exists []. repeat split; try done. by constructor.
  - destruct (Hp x d Hx Hxs) as (p & Hpx & Hpd & Hpe). rewrite Hpx.
    destruct (Hpos _ _ Hpd) as [Hd1 Hpne].
    rewrite bool_decide_eq_false_2 by done.
    destruct (IH p (d - 1) (x :: path) Hpd ltac:(lia)) as (pre & Hr & Hh & Hl & Ht).
    exists (pre ++ [p]). rewrite <-!app_assoc. simpl.
    split; [done|]. split.
    { destruct pre; simpl in *; done. }
    split; [rewrite length_app; simpl; lia|].
    by apply trail_snoc.
Qed.

Section dijkstra.
Context (g : gmap string (gset string)) (start endUser : string).
Hypothesis Hsize : Z.of_nat (size g) ≤ INT_MAX.
Hypothesis Hstart : is_user g start.

Lemma dijkstra_relax_step st n h v todo :
  dijkstra_inv g start endUser n h (v :: todo) st →
  dijkstra_inv g start endUser n h todo (Dijkstra.relax h st v).
Proof.
  intros (k & vs & I & Hpq & Hpar & Hf & Hd & Hend & Hn).
  pose proof (fi_cur I) as Hcur. pose proof (fi_k I) as Hk0.
  pose proof (fi_count I h k Hcur) as Hcnt.
  pose proof (frontier_reached_le _ _ _ _ _ _ _ _ _ I) as Hle.
  unfold Dijkstra.relax. case_bool_decide as Hv.
  - destruct (Dijkstra.dist st !! v) as [dv|] eqn:Hdv; [|done].
    rewrite (subscript_present 0 (Dijkstra.dist st) h k) by apply Hcur.
    rewrite (subscript_present 0 (Dijkstra.dist st) v dv) by done.
    rewrite int_add_small by (unfold INT_MAX in *; lia).
    rewrite (bool_decide_eq_true_2 (k ≠ INF)) by apply Hcur.
    cbn [andb]. destruct (decide (dv = INF)) as [->|Hdvne].
    + (* [v] is reached for the first time *)
      pose proof (frontier_room _ _ _ _ _ _ _ _ _ _ I Hdv) as Hroom.
      assert (k + 1 ≠ INF) as Hk1 by (unfold INF, INT_MAX in *; lia).
      rewrite bool_decide_eq_true_2 by (unfold INF, INT_MAX in *; lia).
      rewrite (subscript_present 0 _ v (k + 1)) by apply lookup_insert_eq.
      exists k, (v :: vs). cbn.
      split.
      { eapply frontier_visit; eauto. intros x. rewrite elem_of_cons. tauto. }
      split.
      { intros d x [[= -> ->]|Hx]%elem_of_cons; apply seen_insert; auto. }
      split.
      { eapply parent_inv_visit; eauto using frontier_start_seen.
        split; [apply (fi_todo I); by left|]. apply (fi_dom I). eauto. }
      split; [done|]. split; [done|]. split.
      { intros d [[Hev _]|Hx]%seen_insert; try done.
        - rewrite Hev. by left.
        - right. eauto. }
      lia.
    + (* [v] was reached before, at a distance no larger *)
      pose proof (fi_upper I v dv (conj Hdv Hdvne)).
      rewrite bool_decide_eq_false_2 by lia.
      exists k, vs. cbn. split; [|done].
      eapply frontier_skip; [done|]. congruence.
  - exists k, vs. split; [|done].
    eapply frontier_skip; [done|].
    intros Hv'. congruence.
Qed.

Lemma dijkstra_relax_spec todo st n h :
  dijkstra_inv g start endUser n h todo st →
  dijkstra_inv g start endUser n h [] (foldl (Dijkstra.relax h) st todo).
Proof.
  revert st. induction todo as [|v todo IH]; intros st Hinv; [done|].
  simpl. apply IH. by apply dijkstra_relax_step.
Qed.

Lemma dijkstra_while_spec fuel st n h :
  dijkstra_inv g start endUser n h [] st →
  (n < fuel)%nat →
  ∃ st', Dijkstra.while fuel g endUser st = Returns st'
         ∧ (search_found g INF start endUser
              (Dijkstra.found st') (Dijkstra.finalDistance st') (Dijkstra.parent st')
            ∨ (Dijkstra.found st' = false ∧ Dijkstra.finalDistance st' = -1
               ∧ ¬ connected g start endUser)).
Proof.
  revert st n h.
  induction fuel as [|fuel IH]; intros st n h Hinv Hfuel; [lia|].
  pose proof Hinv as (k & vs & I & Hpq & Hpar & Hf & Hd & Hend & Hn).
  cbn [Dijkstra.while]. destruct (Dijkstra.top (Dijkstra.pq st)) as [[d u]|] eqn:Htop.
  2:{ (* the queue ran empty *)
    apply top_None in Htop. rewrite Htop in I, Hend.
    exists st. split; [done|]. right. split; [done|]. split; [done|].
    intros [m Hm]. destruct (frontier_closed _ _ _ _ _ _ _ _ _ I Hm) as [d Hd'].
    apply Hend in Hd'. by apply elem_of_nil in Hd'. }
  pose proof (top_elem _ _ Htop) as Hin.
  pose proof (Hpq d u Hin) as Hu.
  rewrite (subscript_present 0 (Dijkstra.dist st) u d) by apply Hu.
  rewrite bool_decide_eq_false_2 by lia.
  assert (u ∈ (Dijkstra.pq st).*2) as HuF.
  { apply list_elem_of_fmap. by exists (d, u). }
  case_bool_decide as Hue.
  - (* [endUser] leaves the queue: [break] *)
    subst u. eexists. split; [done|]. left. cbn.
    split; [done|]. split.
    + destruct (fi_walk I endUser d Hu) as [H1 H2].
      split; [done|]. split; [done|].
      intros m Hm. by apply (fi_min I endUser).
    + exists (Dijkstra.dist st). split; [done|]. split; [done|]. split.
      * pose proof (fi_count I endUser d Hu).
        pose proof (frontier_reached_le _ _ _ _ _ _ _ _ _ I). lia.
      * split; [by eapply frontier_start_seen|].
        intros x e He. split; [by apply (fi_walk I x e)|].
        apply (fi_dom I). destruct He as [He _]. eauto.
  - assert (is_user g u) as [nbrs Hnbrs].
    { apply (fi_dom I). destruct Hu as [Hu1 _]. eauto. }
    rewrite Hnbrs.
    remember (Dijkstra.mk (Dijkstra.dist st) (Dijkstra.parent st)
                (Dijkstra.remove (d, u) (Dijkstra.pq st))
                (Dijkstra.found st) (Dijkstra.finalDistance st)) as st1 eqn:Est1.
    assert (dijkstra_inv g start endUser (pred n) u (set_iter nbrs) st1) as Hinv1.
    { destruct (frontier_pop g start INF k (Dijkstra.pq st).*2
                  (Dijkstra.remove (d, u) (Dijkstra.pq st)).*2 h u (set_iter nbrs)
                  (Dijkstra.dist st) vs I HuF) as [k' I'].
      - intros x dx dh [[d' x'] [-> Hx]]%list_elem_of_fmap Hxd Hud. simpl in *.
        pose proof (seen_inj _ _ _ _ _ Hxd (Hpq d' x' Hx)).
        pose proof (seen_inj _ _ _ _ _ Hud Hu).
        pose proof (top_least _ _ _ Htop Hx). simpl in *. lia.
      - intros x [[d' x'] [-> Hx]]%list_elem_of_fmap. simpl.
        destruct (elem_of_remove_other (d, u) _ _ Hx) as [[= _ ->]|Hx']; [by left|].
        right. apply list_elem_of_fmap. by exists (d', x').
      - intros x [[d' x'] [-> Hx]]%list_elem_of_fmap. simpl.
        apply elem_of_remove in Hx. apply list_elem_of_fmap. by exists (d', x').
      - intros y. rewrite elem_of_set_iter. unfold neighbors. by rewrite Hnbrs.
      - exists k', vs. subst st1. cbn.
        split; [done|]. split.
        { intros d' x Hx. apply Hpq. by eapply elem_of_remove. }
        split; [done|]. split; [done|]. split; [done|]. split.
        { intros d' [[d'' x] [Hx1 Hx2]]%Hend%list_elem_of_fmap. simpl in Hx1. subst x.
          destruct (elem_of_remove_other (d, u) _ _ Hx2) as [[= _ ->]|Hx']; [done|].
          apply list_elem_of_fmap. by exists (d'', endUser). }
        pose proof (length_remove _ _ Hin). lia. }
    assert (0 < n)%nat as Hn0.
    { pose proof (length_remove _ _ Hin). lia. }
    eapply IH; [by apply dijkstra_relax_spec|lia].
Qed.
End dijkstra.

Lemma shortestPathDijkstra_spec s e w :
  Z.of_nat (size (adj w)) ≤ INT_MAX →
  is_user (adj w) s → is_user (adj w) e → s ≠ e →
  path_answer "Dijkstra" s e w (shortestPathDijkstra s e w).
Proof.
  intros Hsize Hs He Hse. unfold shortestPathDijkstra, path_answer. unfold_M.
  pose proof Hs as [ss Hss]. pose proof He as [se Hes].
  rewrite !bool_decide_eq_false_2 by (done || congruence).
  destruct (Dijkstra.init (adj w)) as [dist parent] eqn:Hinit.
  assert (∀ x, dist !! x = (if decide (is_user (adj w) x) then Some INF else None)
               ∧ parent !! x
                 = (if decide (is_user (adj w) x) then Some String.EmptyString else None))
    as Hlook.
  { intros x. pose proof (dijkstra_init_lookup (adj w) x) as H. by rewrite Hinit in H. }
  set (st0 := Dijkstra.mk (<[s := 0]> dist) parent [(0, s)] false (-1)).
  assert (frontier_inv (adj w) s INF 0 [s] s [] (<[s := 0]> dist) [s]) as I0.
  { apply frontier_init; [done|done|apply lookup_insert_eq|].
    intros x Hx. rewrite lookup_insert_ne by done. apply Hlook. }
  assert (∀ x d, seen INF (<[s := 0]> dist) x d → x = s) as Hseen.
  { intros x d [H1 H2]. destruct (decide (x = s)) as [|Hne]; [done|].
    rewrite lookup_insert_ne in H1 by done.
    rewrite (proj1 (Hlook x)) in H1. case_decide; congruence. }
  assert (dijkstra_inv (adj w) s e (size (adj w)) s [] st0) as Hinv.
  { exists 0, [s]. subst st0. cbn.
    split; [done|]. split.
    { intros d x [= -> ->]%list_elem_of_singleton. apply (fi_cur I0). }
    split.
    { split.
      - rewrite (proj2 (Hlook s)). by rewrite decide_True.
      - intros x d Hx Hne. by apply Hseen in Hx. }
    split; [done|]. split; [done|]. split.
    { intros d Hd. apply Hseen in Hd. done. }
    pose proof (frontier_reached_le _ _ _ _ _ _ _ _ _ I0). simpl in *. lia. }
  destruct (dijkstra_while_spec (adj w) s e Hsize Hs (S (size (adj w))) st0 _ _ Hinv)
    as (st' & Hwhile & Hpost); [lia|].
  fold st0. rewrite Hwhile.
  destruct Hpost as [(Hf & Hmin & dist' & Hpar & Hend & Hlt & Hs0 & Hpos)|(Hf & Hd & Hnc)].
  - rewrite Hf. pose proof (proj1 Hmin) as Hd0.
    destruct (dijkstra_rebuild_returns (adj w) INF s dist' (Dijkstra.parent st')
                (S (size (adj w))) e (Dijkstra.finalDistance st') [] Hpar
                (λ y d Hy, proj1 (Hpos y d Hy)) Hend) as [p Hp]; [lia|].
    rewrite Hp. left. eexists _, _. split; [reflexivity|]. split; [done|].
    split; [|done]. split.
    + intros Hempty.
      destruct (dijkstra_rebuild_spec (adj w) INF s dist' (Dijkstra.parent st')
                  (S (size (adj w))) e (Dijkstra.finalDistance st') [] Hpar Hs0 Hs)
        as (pre & Hr & Hh & Hl & Ht); [|done|lia|].
      { intros y d Hy. destruct (Hpos y d Hy) as [? Hyu]. split; [done|].
        intros ->. by apply Hempty. }
      rewrite Hp in Hr. injection Hr as ->.
      split; [done|]. split; [done|]. split; [by rewrite last_snoc|].
      rewrite length_app, Hl. simpl. lia.
    + intros ->. cbn in Hp. by injection Hp as <-.
  - rewrite Hf, Hd. right. split; [reflexivity|done].
Qed.


(** ** Claims about the two path queries *)

Lemma min_hops_unique g u v d d' : min_hops g u v d → min_hops g u v d' → d = d'.
Proof.
  intros (H0 & Hh & Hmin) (H0' & Hh' & Hmin').
  pose proof (Hmin _ Hh'). pose proof (Hmin' _ Hh). lia.
Qed.

Lemma min_hops_connected g u v d : min_hops g u v d → connected g u v.
Proof. intros (_ & Hh & _). by eexists. Qed.

Lemma min_hops_self g u : is_user g u → min_hops g u u 0.
Proof. intros Hu. split; [done|]. split; [by constructor|]. intros n _. lia. Qed.

Lemma shortestPathBFS_self s w :
  is_user (adj w) s → shortestPathBFS s s w = (Returns (0, [s]), w).
Proof.
  intros [ss Hs]. unfold shortestPathBFS. unfold_M.
  rewrite !bool_decide_eq_false_2 by congruence.
  by rewrite bool_decide_eq_true_2.
Qed.

Lemma shortestPathDijkstra_self s w :
  is_user (adj w) s → shortestPathDijkstra s s w = (Returns (0, [s]), w).
Proof.
  intros [ss Hs]. unfold shortestPathDijkstra. unfold_M.
  rewrite !bool_decide_eq_false_2 by congruence.
  by rewrite bool_decide_eq_true_2.
Qed.

(** Decides a closed decidable proposition by evaluation. *)
Ltac by_compute := apply (bool_decide_unpack _); vm_compute; exact I.

Lemma demo_size : Z.of_nat (size (adj demo)) ≤ INT_MAX.
Proof. vm_compute. discriminate. Qed.

Lemma demo_user u :
  u ∈ ["Alice"; "Bob"; "Charlie"; "David"; "Eve"; "Frank"; "Grace"; "Heidi"] →
  is_user (adj demo) u.
Proof.
  intros Hu. unfold is_user.
  rewrite !elem_of_cons in Hu.
  destruct Hu as [->|[->|[->|[->|[->|[->|[->|[->|Hu]]]]]]]];
    [by_compute..|].
  exfalso. exact (not_elem_of_nil _ Hu).
Qed.

(** No path leads from Alice to Grace in the demonstration network. *)
Lemma demo_Alice_Grace_apart : ¬ connected (adj demo) "Alice" "Grace".
Proof.
  assert (is_user (adj demo) "Alice") as Ha by (apply demo_user; by_compute).
  assert (is_user (adj demo) "Grace") as Hg by (apply demo_user; by_compute).
  assert ("Alice" ≠ "Grace") as Hne by discriminate.
  destruct (shortestPathBFS_spec "Alice" "Grace" demo demo_size Ha Hg Hne)
    as [(d & p & Hr & Hmin & _)|[_ Hn]]; [|exact Hn].
  assert ((shortestPathBFS "Alice" "Grace" demo).1 = Returns (-1, [])) as Hc
    by (vm_compute; reflexivity).
  rewrite Hr in Hc. cbn [fst] in Hc. injection Hc as Hd _.
  destruct Hmin as [H0 _]. clear -H0 Hd. lia.
Qed.

(** X10. On two users of a graph with at most [INT_MAX] users,
    [shortestPathBFS] returns; a distance that is not negative is the least
    number of edges on a path between them, and when they are connected the
    distance returned is that least number, not [-1]. *)
Theorem shortestPathBFS_minimal (s e : string) (w : World) :
  Z.of_nat (size (adj w)) ≤ INT_MAX →
  is_user (adj w) s → is_user (adj w) e →
  ∃ d path,
    (shortestPathBFS s e w).1 = Returns (d, path)
    ∧ (0 ≤ d → min_hops (adj w) s e d)
    ∧ (connected (adj w) s e → min_hops (adj w) s e d).
Proof.
  intros Hsize Hs He. destruct (decide (s = e)) as [<-|Hse].
  - exists 0, [s]. rewrite shortestPathBFS_self by done.
    split; [done|]. split; intros _; by apply min_hops_self.
  - destruct (shortestPathBFS_spec s e w Hsize Hs He Hse)
      as [(d & p & -> & Hmin & _)|[-> Hn]].
    + exists d, p. auto.
    + exists (-1), []. split; [done|]. split; [lia|done].
Qed.

Lemma shortestPathBFS_minimal_witness :
  ∃ d path,
    (shortestPathBFS "Bob" "Heidi" demo).1 = Returns (d, path)
    ∧ (0 ≤ d → min_hops (adj demo) "Bob" "Heidi" d)
    ∧ (connected (adj demo) "Bob" "Heidi" → min_hops (adj demo) "Bob" "Heidi" d).
Proof.
  apply (shortestPathBFS_minimal "Bob" "Heidi" demo).
  - apply demo_size.
  - apply demo_user. by_compute.
  - apply demo_user. by_compute.
Defined.

(** X11. On two users of a graph with at most [INT_MAX] users, the two path
    queries return the same distance: the least number of edges, [-1] when
    there is no path, [0] when the two users are the same. *)
Theorem bfs_dijkstra_same_distance (s e : string) (w : World) :
  Z.of_nat (size (adj w)) ≤ INT_MAX →
  is_user (adj w) s → is_user (adj w) e →
  ∃ d p1 p2,
    (shortestPathBFS s e w).1 = Returns (d, p1)
    ∧ (shortestPathDijkstra s e w).1 = Returns (d, p2).
Proof.
  intros Hsize Hs He. destruct (decide (s = e)) as [<-|Hse].
  - exists 0, [s], [s].
    by rewrite shortestPathBFS_self, shortestPathDijkstra_self.
  - destruct (shortestPathBFS_spec s e w Hsize Hs He Hse)
      as [(d & p & -> & Hmin & _)|[-> Hn]];
    destruct (shortestPathDijkstra_spec s e w Hsize Hs He Hse)
      as [(d' & p' & -> & Hmin' & _)|[-> Hn']].
    + rewrite (min_hops_unique _ _ _ _ _ Hmin Hmin'). by exists d', p, p'.
    + destruct Hn'. by eapply min_hops_connected.
    + destruct Hn. by eapply min_hops_connected.
    + by exists (-1), [], [].
Qed.

Lemma bfs_dijkstra_same_distance_witness :
  ∃ d p1 p2,
    (shortestPathBFS "Alice" "Heidi" demo).1 = Returns (d, p1)
    ∧ (shortestPathDijkstra "Alice" "Heidi" demo).1 = Returns (d, p2).
Proof.
  apply (bfs_dijkstra_same_distance "Alice" "Heidi" demo).
  - apply demo_size.
  - apply demo_user. by_compute.
  - apply demo_user. by_compute.
Defined.

(** X12. On two users with no path between them, in a graph with at most
    [INT_MAX] users, both queries return normally with distance [-1] and
    an empty path; what they write to [cout] is the no-path notice, not
    one of the error lines for an unknown user. *)
Theorem no_path_outcome (s e : string) (w : World) :
  Z.of_nat (size (adj w)) ≤ INT_MAX →
  is_user (adj w) s → is_user (adj w) e →
  ¬ connected (adj w) s e →
  shortestPathBFS s e w
  = (Returns (-1, []),
     mkWorld (adj w)
       (cout w ++ ["BFS: No path found between " +:+ quoted s +:+ " and "
                   +:+ quoted e +:+ "."]))
  ∧ shortestPathDijkstra s e w
    = (Returns (-1, []),
       mkWorld (adj w)
         (cout w ++ ["Dijkstra: No path found between " +:+ quoted s +:+ " and "
                     +:+ quoted e +:+ "."])).
Proof.
  intros Hsize Hs He Hn.
  assert (s ≠ e) as Hse.
  { intros <-. apply Hn. exists O. by constructor. }
  split.
  - destruct (shortestPathBFS_spec s e w Hsize Hs He Hse)
      as [(d & p & _ & Hmin & _)|[-> _]]; [|done].
    destruct Hn. by eapply min_hops_connected.
  - destruct (shortestPathDijkstra_spec s e w Hsize Hs He Hse)
      as [(d & p & _ & Hmin & _)|[-> _]]; [|done].
    destruct Hn. by eapply min_hops_connected.
Qed.

Lemma no_path_outcome_witness :
  shortestPathBFS "Alice" "Grace" demo
  = (Returns (-1, []),
     mkWorld (adj demo)
       (cout demo ++ ["BFS: No path found between " +:+ quoted "Alice" +:+ " and "
                      +:+ quoted "Grace" +:+ "."]))
  ∧ shortestPathDijkstra "Alice" "Grace" demo
    = (Returns (-1, []),
       mkWorld (adj demo)
         (cout demo ++ ["Dijkstra: No path found between " +:+ quoted "Alice"
                        +:+ " and " +:+ quoted "Grace" +:+ "."])).
Proof.
  apply (no_path_outcome "Alice" "Grace" demo).
  - apply demo_size.
  - apply demo_user. by_compute.
  - apply demo_user. by_compute.
  - apply demo_Alice_Grace_apart.
Defined.

(** * More about mutation and lookup *)

Lemma lookup_adj_insert u v g x :
  adj_insert u v g !! x
  = if decide (x = u) then Some ({[v]} ∪ neighbors g u) else g !! x.
Proof.
  unfold adj_insert, subscript, neighbors.
  destruct (g !! u) eqn:E; case_decide; subst; simplify_map_eq; done.
Qed.

Lemma addFriendship_cout_users a b w :
  is_user (adj w) a → is_user (adj w) b →
  cout (run (addFriendship a b) w)
  = cout w ++ ["Friendship added between " +:+ quoted a +:+ " and "
               +:+ quoted b +:+ "."].
Proof.
  intros [sa Ha] [sb Hb]. unfold addFriendship. unfold_M.
  rewrite !bool_decide_eq_true_2 by congruence. done.
Qed.

Lemma getFriends_known u w s : adj w !! u = Some s → getFriends u w = (s, w).
Proof. intros H. unfold getFriends. unfold_M. by rewrite H. Qed.

Lemma getFriends_unknown u w :
  adj w !! u = None →
  getFriends u w
  = (∅, mkWorld (adj w) (cout w ++ ["User " +:+ quoted u +:+ " not found."])).
Proof. intros H. unfold getFriends. unfold_M. by rewrite H. Qed.

(** X1. [getFriends] answers the empty set both for a name that is no user
    and for that name once it was added; only the first call writes the
    "not found" line, the second writes nothing. *)
Theorem getFriends_unknown_vs_isolated (u : string) (w : World) :
  adj w !! u = None →
  (getFriends u w).1 = ∅
  ∧ cout (run (getFriends u) w) = cout w ++ ["User " +:+ quoted u +:+ " not found."]
  ∧ (getFriends u (run (addUser u) w)).1 = ∅
  ∧ run (getFriends u) (run (addUser u) w) = run (addUser u) w.
Proof.
  intros Hu. set (w' := run (addUser u) w). rewrite (getFriends_unknown u w Hu). unfold run at 1. 
  rewrite (getFriends_unknown u w Hu). cbn [fst snd cout].
  split; [done|]. split; [done|].
  assert (adj w' !! u = Some ∅) as Hu'.
  { subst w'. rewrite addUser_adj, decide_True by done. apply lookup_insert_eq. }
  unfold run at 1. by rewrite (getFriends_known u w' ∅ Hu').
Qed.

Lemma getFriends_unknown_vs_isolated_witness :
  (getFriends "Zed" (run (addUser "Zed") empty_world)).1 = ∅.
Proof.
  apply (proj1 (proj2 (proj2 (getFriends_unknown_vs_isolated "Zed" empty_world eq_refl)))).
Defined.

(** X2. After [addFriendship a b] on two users, [getFriends a] contains [b]
    and [getFriends b] contains [a], and neither lookup writes to [cout]. *)
Theorem friendship_visible_both_ways (a b : string) (w : World) :
  is_user (adj w) a → is_user (adj w) b →
  b ∈ (getFriends a (run (addFriendship a b) w)).1
  ∧ a ∈ (getFriends b (run (addFriendship a b) w)).1
  ∧ run (getFriends a) (run (addFriendship a b) w) = run (addFriendship a b) w
  ∧ run (getFriends b) (run (addFriendship a b) w) = run (addFriendship a b) w.
Proof.
  intros Ha Hb. set (w' := run (addFriendship a b) w).
  assert (adj w' = adj_insert b a (adj_insert a b (adj w))) as Hadj.
  { subst w'. rewrite addFriendship_adj. by rewrite decide_True. }
  assert (is_user (adj w') a) as [sa Hsa].
  { rewrite Hadj, !is_user_adj_insert. auto. }
  assert (is_user (adj w') b) as [sb Hsb].
  { rewrite Hadj, !is_user_adj_insert. auto. }
  rewrite !getFriends_value, Hadj, !neighbors_adj_insert. unfold run.
  rewrite (getFriends_known a w' sa Hsa), (getFriends_known b w' sb Hsb).
  repeat split; try done; repeat case_decide; set_solver.
Qed.

Lemma friendship_visible_both_ways_witness :
  "Grace" ∈ (getFriends "Alice" (run (addFriendship "Alice" "Grace") demo)).1.
Proof.
  refine (proj1 (friendship_visible_both_ways "Alice" "Grace" demo _ _));
    apply demo_user; by_compute.
Defined.

Lemma exec_keeps c w u v :
  (is_user (adj w) u → is_user (adj (exec c w)) u)
  ∧ (v ∈ neighbors (adj w) u → v ∈ neighbors (adj (exec c w)) u).
Proof.
  destruct c as [x|a b]; simpl.
  - rewrite addUser_adj. case_decide as Hx; [|done]. split.
    + intros Hu. apply is_user_insert. auto.
    + intros Hv. by rewrite neighbors_insert_empty.
  - rewrite addFriendship_adj. case_decide; [|done]. split.
    + intros Hu. rewrite !is_user_adj_insert. auto.
    + intros Hv. rewrite !neighbors_adj_insert.
      repeat case_decide; subst; set_solver.
Qed.

(** X3. No call removes a user or a friendship: whoever is a user stays
    one, and whoever is a friend of a user stays one, after any calls. *)
Theorem nothing_is_removed (cs : list call) (w : World) (u v : string) :
  (is_user (adj w) u → is_user (adj (exec_all cs w)) u)
  ∧ (v ∈ neighbors (adj w) u → v ∈ neighbors (adj (exec_all cs w)) u).
Proof.
  induction cs as [|c cs IH] using rev_ind; [done|].
  rewrite exec_all_snoc. destruct IH as [IH1 IH2].
  destruct (exec_keeps c (exec_all cs w) u v) as [H1 H2].
  split; intros H; [apply H1, IH1, H|apply H2, IH2, H].
Qed.

Lemma nothing_is_removed_witness :
  is_user (adj (exec_all [AddUser "Zed"; AddFriendship "Zed" "Alice"] demo)) "Grace".
Proof.
  refine (proj1 (nothing_is_removed [AddUser "Zed"; AddFriendship "Zed" "Alice"]
                   demo "Grace" "Grace") _).
  apply demo_user. by_compute.
Defined.

(** X4. On [adj], [addFriendship] is idempotent and does not depend on the
    order of its two arguments. *)
Theorem addFriendship_idempotent_commutative (a b : string) (w : World) :
  adj (run (addFriendship a b) (run (addFriendship a b) w))
  = adj (run (addFriendship a b) w)
  ∧ adj (run (addFriendship a b) w) = adj (run (addFriendship b a) w).
Proof.
  split.
  - rewrite (addFriendship_adj a b (run (addFriendship a b) w)).
    rewrite (addFriendship_adj a b w).
    destruct (decide (is_user (adj w) a ∧ is_user (adj w) b)) as [[Ha Hb]|Hn].
    + rewrite decide_True by (rewrite !is_user_adj_insert; auto).
      apply map_eq. intros x. rewrite !lookup_adj_insert, !neighbors_adj_insert.
      repeat case_decide; subst; try done; f_equal; set_solver.
    + by rewrite decide_False.
  - rewrite !addFriendship_adj.
    destruct (decide (is_user (adj w) a ∧ is_user (adj w) b)) as [[Ha Hb]|Hn].
    + rewrite decide_True by done.
      apply map_eq. intros x. rewrite !lookup_adj_insert, !neighbors_adj_insert.
      repeat case_decide; subst; try done; f_equal; set_solver.
    + rewrite decide_False by tauto. done.
Qed.

Lemma dom_addFriendship a b w : dom (adj (run (addFriendship a b) w)) = dom (adj w).
Proof.
  rewrite addFriendship_adj. case_decide as Hab; [|done]. destruct Hab as [Ha Hb].
  apply set_eq. intros x. rewrite !elem_of_dom.
  change (is_user (adj_insert b a (adj_insert a b (adj w))) x ↔ is_user (adj w) x).
  rewrite !is_user_adj_insert. naive_solver.
Qed.

Lemma dom_addUser u w : dom (adj (run (addUser u) w)) = {[u]} ∪ dom (adj w).
Proof.
  rewrite addUser_adj. case_decide as Hu.
  - by rewrite dom_insert_L.
  - apply not_eq_None_Some, elem_of_dom in Hu. set_solver.
Qed.

(** X5. The users of a network built from the empty one are exactly the
    names passed to [addUser]; a friendship call never creates a user. *)
Theorem users_are_the_added (cs : list call) :
  dom (adj (exec_all cs empty_world)) = list_to_set (added_users cs).
Proof.
  induction cs as [|c cs IH] using rev_ind; [apply dom_empty_L|].
  rewrite exec_all_snoc. unfold added_users in *. rewrite omap_app, list_to_set_app_L, <-IH.
  destruct c as [u|a b]; simpl.
  - rewrite dom_addUser. set_solver.
  - rewrite dom_addFriendship. set_solver.
Qed.

(** X6. No friendship appears by itself: in a network built from the empty
    one, [v] is a friend of [u] only if [addFriendship] was called on the
    two. *)
Theorem friendships_come_from_calls (cs : list call) (u v : string) :
  v ∈ neighbors (adj (exec_all cs empty_world)) u →
  AddFriendship u v ∈ cs ∨ AddFriendship v u ∈ cs.
Proof.
  induction cs as [|c cs IH] using rev_ind.
  { unfold neighbors. simpl. rewrite lookup_empty. set_solver. }
  rewrite exec_all_snoc. setoid_rewrite elem_of_app.
  setoid_rewrite list_elem_of_singleton.
  destruct c as [x|a b]; simpl.
  - rewrite addUser_adj. case_decide; [|naive_solver].
    rewrite neighbors_insert_empty by done. naive_solver.
  - rewrite addFriendship_adj. case_decide; [|naive_solver].
    rewrite !neighbors_adj_insert.
    repeat case_decide; subst; set_unfold; naive_solver.
Qed.

Lemma friendships_come_from_calls_witness :
  AddFriendship "a" "b" ∈ [AddUser "a"; AddUser "b"; AddFriendship "a" "b"]
  ∨ AddFriendship "b" "a" ∈ [AddUser "a"; AddUser "b"; AddFriendship "a" "b"].
Proof.
  apply (friendships_come_from_calls [AddUser "a"; AddUser "b"; AddFriendship "a" "b"] "a" "b").
  by_compute.
Defined.

(** * More about the path queries *)

(** X7. A path query on an unknown user returns [-1] with an empty path and
    writes one error line.  The start user is checked first: when it is
    unknown the end user is not looked at. *)
Theorem path_queries_unknown_user (s e : string) (w : World) :
  (adj w !! s = None →
     shortestPathBFS s e w
     = (Returns (-1, []),
        mkWorld (adj w)
          (cout w ++ ["Error: Start user " +:+ quoted s +:+ " not found for BFS."]))
     ∧ shortestPathDijkstra s e w
       = (Returns (-1, []),
          mkWorld (adj w)
            (cout w ++ ["Error: Start user " +:+ quoted s
                        +:+ " not found for Dijkstra."])))
  ∧ (is_user (adj w) s → adj w !! e = None →
     shortestPathBFS s e w
     = (Returns (-1, []),
        mkWorld (adj w)
          (cout w ++ ["Error: End user " +:+ quoted e +:+ " not found for BFS."]))
     ∧ shortestPathDijkstra s e w
       = (Returns (-1, []),
          mkWorld (adj w)
            (cout w ++ ["Error: End user " +:+ quoted e
                        +:+ " not found for Dijkstra."]))).
Proof.
  split.
  - intros Hs. unfold shortestPathBFS, shortestPathDijkstra. unfold_M.
    by rewrite !bool_decide_eq_true_2.
  - intros [ss Hs] He. unfold shortestPathBFS, shortestPathDijkstra. unfold_M.
    rewrite !(bool_decide_eq_false_2 (adj w !! s = None)) by congruence.
    by rewrite !bool_decide_eq_true_2.
Qed.

Lemma path_queries_unknown_user_witness :
  (shortestPathBFS "Nobody" "Alice" demo).1 = Returns (-1, []).
Proof.
  refine (f_equal fst (proj1 (proj1 (path_queries_unknown_user "Nobody" "Alice" demo) _))).
  by_compute.
Defined.

(** X8. [getMutualFriends] with an unknown user on either side, and
    [suggestFriends] of an unknown user, return an empty answer and write
    one error line. *)
Theorem mutual_and_suggest_unknown_user (a b : string) (w : World) :
  (adj w !! a = None ∨ adj w !! b = None →
     getMutualFriends a b w
     = (∅, mkWorld (adj w)
             (cout w ++ ["Error: One or both users (" +:+ quoted a +:+ ", "
                         +:+ quoted b
                         +:+ ") not found for mutual friends calculation."])))
  ∧ (adj w !! a = None →
     suggestFriends a w
     = ([], mkWorld (adj w)
              (cout w ++ ["Error: User " +:+ quoted a
                          +:+ " not found for friend suggestions."]))).
Proof.
  split.
  - intros Hab. unfold getMutualFriends. unfold_M.
    destruct (adj w !! a), (adj w !! b); try done; by destruct Hab.
  - intros Ha. unfold suggestFriends. unfold_M. by rewrite Ha.
Qed.

Lemma mutual_and_suggest_unknown_user_witness :
  (suggestFriends "Nobody" demo).1 = [].
Proof.
  refine (f_equal fst (proj2 (mutual_and_suggest_unknown_user "Nobody" "Alice" demo) _)).
  by_compute.
Defined.

(** X9. From a user to itself both path queries answer distance [0] and
    the path holding that user alone, without running a search and without
    writing anything. *)
Theorem path_to_self (x : string) (w : World) :
  is_user (adj w) x →
  shortestPathBFS x x w = (Returns (0, [x]), w)
  ∧ shortestPathDijkstra x x w = (Returns (0, [x]), w).
Proof.
  intros Hx. by rewrite shortestPathBFS_self, shortestPathDijkstra_self.
Qed.

Lemma path_to_self_witness :
  shortestPathBFS "Grace" "Grace" demo = (Returns (0, ["Grace"]), demo).
Proof.
  refine (proj1 (path_to_self "Grace" demo _)). apply demo_user. by_compute.
Defined.


Lemma path_ok_self g s : is_user g s → path_ok g s s 0 [s] ∨ s = String.EmptyString.
Proof.
  intros Hs. destruct (decide (s = String.EmptyString)) as [->|Hne]; [by right|].
  left. split; [|done]. intros _. repeat split; try done. by constructor.
Qed.

(** X13. When no user has the empty name, the path either query returns for
    two connected users is a shortest path: it starts at [s], ends at [e],
    follows edges of the graph, and has as many edges as the distance
    returned, which is the least possible. *)
Theorem returned_paths_are_shortest (s e : string) (w : World) :
  Z.of_nat (size (adj w)) ≤ INT_MAX →
  is_user (adj w) s → is_user (adj w) e →
  ¬ is_user (adj w) String.EmptyString →
  connected (adj w) s e →
  ∃ d p1 p2,
    (shortestPathBFS s e w).1 = Returns (d, p1)
    ∧ (shortestPathDijkstra s e w).1 = Returns (d, p2)
    ∧ min_hops (adj w) s e d
    ∧ ∀ p, p = p1 ∨ p = p2 →
        trail (adj w) p ∧ head p = Some s ∧ last p = Some e
        ∧ length p = S (Z.to_nat d).
Proof.
  intros Hsize Hs He Hempty Hconn. destruct (decide (s = e)) as [<-|Hse].
  - exists 0, [s], [s]. rewrite shortestPathBFS_self, shortestPathDijkstra_self by done.
    split; [done|]. split; [done|]. split; [by apply min_hops_self|].
    intros p [->| ->]; repeat split; try done; by constructor.
  - destruct (shortestPathBFS_spec s e w Hsize Hs He Hse)
      as [(d & p & -> & Hmin & Hok & _)|[_ Hn]]; [|done].
    destruct (shortestPathDijkstra_spec s e w Hsize Hs He Hse)
      as [(d' & p' & -> & Hmin' & Hok' & _)|[_ Hn]]; [|done].
    pose proof (min_hops_unique _ _ _ _ _ Hmin' Hmin) as ->.
    exists d, p, p'. split; [done|]. split; [done|]. split; [done|].
    intros q [->| ->]; [apply (proj1 Hok Hempty)|apply (proj1 Hok' Hempty)].
Qed.

Lemma demo_no_empty_name : ¬ is_user (adj demo) String.EmptyString.
Proof. intros [s Hs]. vm_compute in Hs. discriminate Hs. Qed.

Lemma demo_Bob_Heidi_connected : connected (adj demo) "Bob" "Heidi".
Proof.
  assert (is_user (adj demo) "Bob") as Ha by (apply demo_user; by_compute).
  assert (is_user (adj demo) "Heidi") as Hg by (apply demo_user; by_compute).
  assert ("Bob" ≠ "Heidi") as Hne by discriminate.
  destruct (shortestPathBFS_spec "Bob" "Heidi" demo demo_size Ha Hg Hne)
    as [(d & p & _ & Hmin & _)|[Hr _]].
  - exact (min_hops_connected _ _ _ _ Hmin).
  - assert ((shortestPathBFS "Bob" "Heidi" demo).1
            = Returns (4, ["Bob"; "David"; "Eve"; "Frank"; "Heidi"])) as Hc
      by (vm_compute; reflexivity).
    rewrite Hr in Hc. cbn [fst] in Hc. discriminate Hc.
Qed.

Lemma returned_paths_are_shortest_witness :
  ∃ d p1 p2,
    (shortestPathBFS "Bob" "Heidi" demo).1 = Returns (d, p1)
    ∧ (shortestPathDijkstra "Bob" "Heidi" demo).1 = Returns (d, p2)
    ∧ min_hops (adj demo) "Bob" "Heidi" d
    ∧ ∀ p, p = p1 ∨ p = p2 →
        trail (adj demo) p ∧ head p = Some "Bob" ∧ last p = Some "Heidi"
        ∧ length p = S (Z.to_nat d).
Proof.
  apply (returned_paths_are_shortest "Bob" "Heidi" demo).
  - apply demo_size.
  - apply demo_user. by_compute.
  - apply demo_user. by_compute.
  - apply demo_no_empty_name.
  - apply demo_Bob_Heidi_connected.
Defined.



(** * Path queries and mutation together *)

Lemma reachable_symmetric_closed w : reachable w → symmetric (adj w) ∧ closed (adj w).
Proof.
  revert w. apply reachable_ind.
  - split; intros u v; unfold neighbors; simpl; rewrite lookup_empty; set_solver.
  - intros w [u|a b] _ [Hs Hc]; simpl;
      eauto using symmetric_addUser, closed_addUser,
                  symmetric_addFriendship, closed_addFriendship.
Qed.

Lemma hops_prepend g u v n x : edge g u v → is_user g u → hops g v n x → hops g u (S n) x.
Proof.
  intros Huv Hu. induction 1 as [Hv|n y x Hy IH Hyx].
  - econstructor; [by constructor|done].
  - econstructor; [exact IH|done].
Qed.

Lemma hops_start_user g u n x : hops g u n x → is_user g u.
Proof. induction 1; done. Qed.

Lemma hops_sym g u n v : symmetric g → hops g u n v → hops g v n u.
Proof.
  intros Hsym. induction 1 as [Hu|n y x Hy IH [Hyx Hx]].
  - by constructor.
  - apply (hops_prepend g x y); [|done|done].
    split; [by apply Hsym|]. by eapply hops_start_user.
Qed.

Lemma min_hops_sym g u v d : symmetric g → min_hops g u v d → min_hops g v u d.
Proof.
  intros Hsym (H0 & Hh & Hmin). split; [done|]. split; [by apply hops_sym|].
  intros n Hn. apply Hmin. by apply hops_sym.
Qed.

(** The distance a path query returns, as a function of the graph alone:
    both queries return the least number of edges, or [-1]. *)
Lemma distance_cases s e w :
  Z.of_nat (size (adj w)) ≤ INT_MAX →
  is_user (adj w) s → is_user (adj w) e →
  ∃ d p1 p2,
    (shortestPathBFS s e w).1 = Returns (d, p1)
    ∧ (shortestPathDijkstra s e w).1 = Returns (d, p2)
    ∧ (min_hops (adj w) s e d ∨ (d = -1 ∧ ¬ connected (adj w) s e)).
Proof.
  intros Hsize Hs He. destruct (decide (s = e)) as [<-|Hse].
  - exists 0, [s], [s]. rewrite shortestPathBFS_self, shortestPathDijkstra_self by done.
    split; [done|]. split; [done|]. left. by apply min_hops_self.
  - destruct (shortestPathBFS_spec s e w Hsize Hs He Hse)
      as [(d & p & -> & Hmin & _)|[-> Hn]];
    destruct (shortestPathDijkstra_spec s e w Hsize Hs He Hse)
      as [(d' & p' & -> & Hmin' & _)|[-> Hn']].
    + rewrite (min_hops_unique _ _ _ _ _ Hmin Hmin'). exists d', p, p'. auto.
    + destruct Hn'. by eapply min_hops_connected.
    + destruct Hn. by eapply min_hops_connected.
    + exists (-1), [], []. auto.
Qed.

(** X15. In a network built by [addUser] and [addFriendship] the distance
    does not depend on the direction of the query. *)
Theorem distance_is_symmetric (a b : string) (w : World) :
  reachable w →
  Z.of_nat (size (adj w)) ≤ INT_MAX →
  is_user (adj w) a → is_user (adj w) b →
  ∃ d p q,
    (shortestPathBFS a b w).1 = Returns (d, p)
    ∧ (shortestPathBFS b a w).1 = Returns (d, q).
Proof.
  intros [Hsym _]%reachable_symmetric_closed Hsize Ha Hb.
  destruct (distance_cases a b w Hsize Ha Hb) as (d & p & _ & -> & _ & Hd).
  destruct (distance_cases b a w Hsize Hb Ha) as (d' & q & _ & -> & _ & Hd').
  assert (d = d') as <-; [|by exists d, p, q].
  destruct Hd as [Hd|[-> Hn]]; destruct Hd' as [Hd'|[-> Hn']]; [| | |done].
  - apply min_hops_sym in Hd'; [|done]. by eapply min_hops_unique.
  - destruct Hn'. apply min_hops_sym in Hd; [|done]. by eapply min_hops_connected.
  - destruct Hn. apply min_hops_sym in Hd'; [|done]. by eapply min_hops_connected.
Qed.

Lemma demo_reachable : reachable demo.
Proof.
  exists ((AddUser <$> ["Alice"; "Bob"; "Charlie"; "David"; "Eve"; "Frank"; "Grace"; "Heidi"])
          ++ [AddFriendship "Alice" "Bob"; AddFriendship "Alice" "Charlie";
              AddFriendship "Bob" "David"; AddFriendship "Charlie" "David";
              AddFriendship "Charlie" "Eve"; AddFriendship "David" "Eve";
              AddFriendship "Eve" "Frank"; AddFriendship "Frank" "Heidi"]).
  vm_compute. reflexivity.
Qed.

Lemma distance_is_symmetric_witness :
  ∃ d p q,
    (shortestPathBFS "Alice" "Heidi" demo).1 = Returns (d, p)
    ∧ (shortestPathBFS "Heidi" "Alice" demo).1 = Returns (d, q).
Proof.
  apply (distance_is_symmetric "Alice" "Heidi" demo).
  - apply demo_reachable.
  - apply demo_size.
  - apply demo_user. by_compute.
  - apply demo_user. by_compute.
Defined.

Lemma trail_two g p a b :
  trail g p → head p = Some a → last p = Some b → length p = 2%nat → p = [a; b].
Proof.
  intros _ Hh Hl Hlen. destruct p as [|x [|y [|z p]]]; simpl in *; try done.
  congruence.
Qed.

(** X16. Right after [addFriendship a b] on two different users, both
    queries find [b] at distance [1] from [a]; the path is [a, b] when no
    user has the empty name. *)
Theorem new_friends_are_one_apart (a b : string) (w : World) :
  Z.of_nat (size (adj w)) ≤ INT_MAX →
  is_user (adj w) a → is_user (adj w) b → a ≠ b →
  ∃ p1 p2,
    (shortestPathBFS a b (run (addFriendship a b) w)).1 = Returns (1, p1)
    ∧ (shortestPathDijkstra a b (run (addFriendship a b) w)).1 = Returns (1, p2)
    ∧ (¬ is_user (adj w) String.EmptyString → p1 = [a; b] ∧ p2 = [a; b]).
Proof.
  intros Hsize Ha Hb Hab. set (w' := run (addFriendship a b) w).
  assert (adj w' = adj_insert b a (adj_insert a b (adj w))) as Hadj.
  { subst w'. rewrite addFriendship_adj. by rewrite decide_True. }
  assert (dom (adj w') = dom (adj w)) as Hdom by apply dom_addFriendship.
  assert (∀ x, is_user (adj w') x ↔ is_user (adj w) x) as Hu.
  { intros x. unfold is_user. by rewrite <-!elem_of_dom, Hdom. }
  assert (Z.of_nat (size (adj w')) ≤ INT_MAX) as Hsize'.
  { by rewrite <-(size_dom (D := gset string)), Hdom, size_dom. }
  assert (min_hops (adj w') a b 1) as Hmin.
  { split; [done|]. split.
    - apply (hops_S _ _ O a); [constructor; by apply Hu|].
      split; [|by apply Hu]. rewrite Hadj, !neighbors_adj_insert.
      repeat case_decide; set_solver.
    - intros [|n] Hn; [|lia]. inversion Hn; by subst. }
  destruct (shortestPathBFS_spec a b w' Hsize' (proj2 (Hu a) Ha) (proj2 (Hu b) Hb) Hab)
    as [(d & p & -> & Hmin1 & Hok & _)|[_ Hn]];
    [|destruct Hn; by eapply min_hops_connected].
  destruct (shortestPathDijkstra_spec a b w' Hsize' (proj2 (Hu a) Ha) (proj2 (Hu b) Hb) Hab)
    as [(d' & p' & -> & Hmin2 & Hok' & _)|[_ Hn]];
    [|destruct Hn; by eapply min_hops_connected].
  pose proof (min_hops_unique _ _ _ _ _ Hmin1 Hmin) as ->.
  pose proof (min_hops_unique _ _ _ _ _ Hmin2 Hmin) as ->.
  exists p, p'. split; [done|]. split; [done|].
  intros Hempty. assert (¬ is_user (adj w') String.EmptyString) as Hempty'.
  { by rewrite Hu. }
  destruct (proj1 Hok Hempty') as (Ht & Hh & Hl & Hlen).
  destruct (proj1 Hok' Hempty') as (Ht' & Hh' & Hl' & Hlen').
  split; by eapply trail_two.
Qed.

Lemma new_friends_are_one_apart_witness :
  ∃ p1 p2,
    (shortestPathBFS "Alice" "Grace" (run (addFriendship "Alice" "Grace") demo)).1
    = Returns (1, p1)
    ∧ (shortestPathDijkstra "Alice" "Grace" (run (addFriendship "Alice" "Grace") demo)).1
      = Returns (1, p2)
    ∧ (¬ is_user (adj demo) String.EmptyString
       → p1 = ["Alice"; "Grace"] ∧ p2 = ["Alice"; "Grace"]).
Proof.
  apply (new_friends_are_one_apart "Alice" "Grace" demo).
  - apply demo_size.
  - apply demo_user. by_compute.
  - apply demo_user. by_compute.
  - discriminate.
Defined.

(** X17. A user just added to a network built by [addUser] and
    [addFriendship] is isolated: from any other user both queries give the
    no-path outcome. *)
Theorem fresh_user_is_unreachable (s u : string) (w : World) :
  reachable w →
  Z.of_nat (size (adj w)) < INT_MAX →
  is_user (adj w) s → adj w !! u = None →
  (shortestPathBFS s u (run (addUser u) w)).1 = Returns (-1, [])
  ∧ (shortestPathDijkstra s u (run (addUser u) w)).1 = Returns (-1, []).
Proof.
  intros [_ Hclosed]%reachable_symmetric_closed Hsize Hs Hu.
  set (w' := run (addUser u) w).
  assert (adj w' = <[u := ∅]> (adj w)) as Hadj.
  { subst w'. rewrite addUser_adj. by rewrite decide_True. }
  assert (s ≠ u) as Hsu.
  { intros ->. destruct Hs as [? Hs]. congruence. }
  assert (Z.of_nat (size (adj w')) ≤ INT_MAX) as Hsize'.
  { rewrite Hadj, map_size_insert_None by done. lia. }
  assert (is_user (adj w') s) as Hs'.
  { rewrite Hadj. apply is_user_insert. auto. }
  assert (is_user (adj w') u) as Hu'.
  { rewrite Hadj. apply is_user_insert. auto. }
  assert (¬ connected (adj w') s u) as Hn.
  { intros [n Hn]. inversion Hn as [|m v x Hv [Hvu _]]; subst; [done|].
    rewrite Hadj, neighbors_insert_empty in Hvu by done.
    destruct (Hclosed v u Hvu) as [? Hu2]. congruence. }
  destruct (shortestPathBFS_spec s u w' Hsize' Hs' Hu' Hsu)
    as [(d & p & _ & Hmin & _)|[-> _]];
    [destruct Hn; by eapply min_hops_connected|].
  destruct (shortestPathDijkstra_spec s u w' Hsize' Hs' Hu' Hsu)
    as [(d & p & _ & Hmin & _)|[-> _]];
    [destruct Hn; by eapply min_hops_connected|].
  done.
Qed.

Lemma fresh_user_is_unreachable_witness :
  (shortestPathBFS "Alice" "Zed" (run (addUser "Zed") demo)).1 = Returns (-1, [])
  ∧ (shortestPathDijkstra "Alice" "Zed" (run (addUser "Zed") demo)).1 = Returns (-1, []).
Proof.
  apply (fresh_user_is_unreachable "Alice" "Zed" demo).
  - apply demo_reachable.
  - vm_compute. reflexivity.
  - apply demo_user. by_compute.
  - by_compute.
Defined.

Lemma hops_exec c w u n v : hops (adj w) u n v → hops (adj (exec c w)) u n v.
Proof.
  induction 1 as [Hu|n y x Hy IH [Hyx Hx]].
  - constructor. by apply (exec_keeps c w u u).
  - econstructor; [exact IH|]. split.
    + by apply (exec_keeps c w y x).
    + by apply (exec_keeps c w x x).
Qed.

Lemma hops_exec_all cs w u n v :
  hops (adj w) u n v → hops (adj (exec_all cs w)) u n v.
Proof.
  intros H. induction cs as [|c cs IH] using rev_ind; [done|].
  rewrite exec_all_snoc. by apply hops_exec.
Qed.

Lemma size_exec_all cs w : (size (adj w) ≤ size (adj (exec_all cs w)))%nat.
Proof.
  induction cs as [|c cs IH] using rev_ind; [done|].
  rewrite exec_all_snoc. etrans; [exact IH|].
  rewrite <-!(size_dom (D := gset string)). apply subseteq_size.
  intros x Hx%elem_of_dom. apply elem_of_dom.
  by apply (exec_keeps c (exec_all cs w) x x).
Qed.

(** X18. Further calls never move two connected users apart: after any
    calls they are still connected, at a distance that is no larger. *)
Theorem more_calls_never_lengthen (cs : list call) (a b : string) (w : World) :
  Z.of_nat (size (adj (exec_all cs w))) ≤ INT_MAX →
  is_user (adj w) a → is_user (adj w) b →
  connected (adj w) a b →
  ∃ d d' p p',
    (shortestPathBFS a b w).1 = Returns (d, p)
    ∧ (shortestPathBFS a b (exec_all cs w)).1 = Returns (d', p')
    ∧ 0 ≤ d' ≤ d.
Proof.
  intros Hsize' Ha Hb Hconn.
  pose proof (size_exec_all cs w) as Hle.
  assert (Z.of_nat (size (adj w)) ≤ INT_MAX) as Hsize by lia.
  assert (is_user (adj (exec_all cs w)) a) as Ha'.
  { destruct Ha as [sa Hsa]. eapply hops_is_user, (hops_exec_all cs w a O a).
    constructor. by exists sa. }
  assert (is_user (adj (exec_all cs w)) b) as Hb'.
  { destruct Hb as [sb Hsb]. eapply hops_is_user, (hops_exec_all cs w b O b).
    constructor. by exists sb. }
  destruct (distance_cases a b w Hsize Ha Hb) as (d & p & _ & -> & _ & Hd).
  destruct (distance_cases a b _ Hsize' Ha' Hb') as (d' & p' & _ & -> & _ & Hd').
  exists d, d', p, p'. split; [done|]. split; [done|].
  destruct Hd as [(H0 & Hh & _)|[_ Hn]]; [|done].
  apply (hops_exec_all cs) in Hh.
  destruct Hd' as [(H0' & _ & Hmin')|[_ Hn']].
  - pose proof (Hmin' _ Hh). lia.
  - destruct Hn'. by eexists.
Qed.

Lemma demo_Alice_Heidi_connected : connected (adj demo) "Alice" "Heidi".
Proof.
  assert (is_user (adj demo) "Alice") as Ha by (apply demo_user; by_compute).
  assert (is_user (adj demo) "Heidi") as Hg by (apply demo_user; by_compute).
  assert ("Alice" ≠ "Heidi") as Hne by discriminate.
  destruct (shortestPathBFS_spec "Alice" "Heidi" demo demo_size Ha Hg Hne)
    as [(d & p & _ & Hmin & _)|[Hr _]].
  - exact (min_hops_connected _ _ _ _ Hmin).
  - assert ((shortestPathBFS "Alice" "Heidi" demo).1
            = Returns (4, ["Alice"; "Charlie"; "Eve"; "Frank"; "Heidi"])) as Hc
      by (vm_compute; reflexivity).
    rewrite Hr in Hc. cbn [fst] in Hc. discriminate Hc.
Qed.

Lemma more_calls_never_lengthen_witness :
  ∃ d d' p p',
    (shortestPathBFS "Alice" "Heidi" demo).1 = Returns (d, p)
    ∧ (shortestPathBFS "Alice" "Heidi" (exec_all [AddFriendship "Alice" "Frank"] demo)).1
      = Returns (d', p')
    ∧ 0 ≤ d' ≤ d.
Proof.
  apply (more_calls_never_lengthen [AddFriendship "Alice" "Frank"] "Alice" "Heidi" demo).
  - vm_compute. discriminate.
  - apply demo_user. by_compute.
  - apply demo_user. by_compute.
  - apply demo_Alice_Heidi_connected.
Defined.

Lemma path_queries_unknown_aux (s e : string) (w : World) :
  (adj w !! s = None →
     (shortestPathBFS s e w).1 = Returns (-1, [])
     ∧ (shortestPathDijkstra s e w).1 = Returns (-1, []))
  ∧ (is_user (adj w) s → adj w !! e = None →
     (shortestPathBFS s e w).1 = Returns (-1, [])
     ∧ (shortestPathDijkstra s e w).1 = Returns (-1, [])).
Proof.
  split.
  - intros Hs. unfold shortestPathBFS, shortestPathDijkstra. unfold_M.
    by rewrite !bool_decide_eq_true_2.
  - intros [ss Hs] He. unfold shortestPathBFS, shortestPathDijkstra. unfold_M.
    rewrite !(bool_decide_eq_false_2 (adj w !! s = None)) by congruence.
    by rewrite !bool_decide_eq_true_2.
Qed.

(** X21. On a graph with at most [INT_MAX] users both path queries return
    for all arguments, known or not: [adj.at] never throws and the loops
    end.  The two distances are equal, and are [-1] or at least [0] and
    below the number of users. *)
Theorem path_queries_always_return (s e : string) (w : World) :
  Z.of_nat (size (adj w)) ≤ INT_MAX →
  ∃ d p1 p2,
    (shortestPathBFS s e w).1 = Returns (d, p1)
    ∧ (shortestPathDijkstra s e w).1 = Returns (d, p2)
    ∧ -1 ≤ d < Z.of_nat (size (adj w)).
Proof.
  intros Hsize.
  destruct (adj w !! s) as [ss|] eqn:Hs.
  2:{ exists (-1), [], [].
      destruct (proj1 (path_queries_unknown_aux s e w) Hs) as [-> ->].
      repeat split; lia. }
  assert (is_user (adj w) s) as Hus by (by exists ss).
  assert (0 < size (adj w))%nat as Hpos.
  { destruct (size (adj w)) eqn:E; [|lia].
    apply map_size_empty_inv in E. rewrite E, lookup_empty in Hs. done. }
  destruct (adj w !! e) as [se|] eqn:He.
  2:{ exists (-1), [], [].
      destruct (proj2 (path_queries_unknown_aux s e w) Hus He) as [-> ->].
      repeat split; lia. }
  assert (is_user (adj w) e) as Hue by (by exists se).
  destruct (decide (s = e)) as [<-|Hse].
  - exists 0, [s], [s]. rewrite shortestPathBFS_self, shortestPathDijkstra_self by done.
    repeat split; lia.
  - destruct (shortestPathBFS_spec s e w Hsize Hus Hue Hse)
      as [(d & p & -> & Hmin & _ & Hlt)|[-> Hn]];
    destruct (shortestPathDijkstra_spec s e w Hsize Hus Hue Hse)
      as [(d' & p' & -> & Hmin' & _)|[-> Hn']].
    + rewrite <-(min_hops_unique _ _ _ _ _ Hmin Hmin'). exists d, p, p'.
      destruct Hmin as [H0 _]. repeat split; lia.
    + destruct Hn'. by eapply min_hops_connected.
    + destruct Hn. by eapply min_hops_connected.
    + exists (-1), [], []. repeat split; lia.
Qed.

Lemma path_queries_always_return_witness :
  ∃ d p1 p2,
    (shortestPathBFS "Nobody" "Alice" demo).1 = Returns (d, p1)
    ∧ (shortestPathDijkstra "Nobody" "Alice" demo).1 = Returns (d, p2)
    ∧ -1 ≤ d < Z.of_nat (size (adj demo)).
Proof.
  apply (path_queries_always_return "Nobody" "Alice" demo). apply demo_size.
Defined.

(** * Friend suggestions *)

Lemma count_incr_lookup counts k c :
  count_incr counts k !! c
  = if decide (c = k) then Some (int_add (default 0 (counts !! k)) 1) else counts !! c.
Proof.
  unfold count_incr, subscript.
  destruct (counts !! k) eqn:E; case_decide; subst; simplify_map_eq; done.
Qed.

Lemma suggest_inner_lookup g label fofs counts c :
  NoDup fofs →
  suggest_inner g label (neighbors g label) counts fofs !! c
  = if decide (c ∈ fofs ∧ candidate g label c)
    then Some (int_add (default 0 (counts !! c)) 1) else counts !! c.
Proof.
  unfold suggest_inner. revert counts.
  induction fofs as [|p fofs IH]; intros counts Hnd; cbn [foldl].
  { rewrite decide_False; [done|]. intros [[]%elem_of_nil _]. }
  apply NoDup_cons in Hnd as [Hp Hnd]. rewrite IH by done. clear IH.
  destruct (decide (c = p)) as [->|Hcp].
  - rewrite (decide_False (P := p ∈ fofs ∧ _)) by tauto.
    destruct (decide (candidate g label p)) as [Hc|Hc].
    + rewrite decide_True by (split; [by left|done]).
      destruct Hc as (H1 & H2 & H3).
      rewrite !bool_decide_eq_true_2; [|by apply not_eq_None_Some|done|done].
      simpl. rewrite count_incr_lookup. by rewrite decide_True.
    + rewrite decide_False by tauto.
      unfold candidate, is_user in Hc. rewrite <-not_eq_None_Some in Hc.
      repeat case_bool_decide; simpl; try done. tauto.
  - assert (∀ m : gmap string Z,
              (if bool_decide (p ≠ label) && bool_decide (p ∉ neighbors g label)
               then if bool_decide (g !! p ≠ None) then count_incr m p else m
               else m) !! c = m !! c) as Hother.
    { intros m. repeat case_bool_decide; simpl; try done.
      rewrite count_incr_lookup. by rewrite decide_False. }
    rewrite Hother.
    destruct (decide (c ∈ fofs ∧ candidate g label c)) as [[H1 H2]|Hn].
    + by rewrite decide_True by (split; [by right|done]).
    + rewrite decide_False; [done|].
      intros [[?|?]%elem_of_cons ?]; [done|tauto].
Qed.

Lemma via_snoc g c l f :
  via g c (l ++ [f]) = (via g c l + if decide (c ∈ neighbors g f) then 1 else 0)%nat.
Proof.
  unfold via. rewrite filter_app, length_app. f_equal.
  rewrite filter_cons, filter_nil. by case_decide.
Qed.

Lemma via_le_size g c l : NoDup l → (via g c l ≤ size g)%nat.
Proof.
  intros Hnd. unfold via.
  rewrite <-(size_dom (D := gset string)),
    <-(size_list_to_set (C := gset string) (filter (λ f, c ∈ neighbors g f) l))
    by (by apply NoDup_filter).
  apply subseteq_size. intros x [Hx _]%elem_of_list_to_set%list_elem_of_filter.
  apply elem_of_dom. unfold neighbors in Hx.
  destruct (g !! x); [eauto|]. by apply elem_of_empty in Hx.
Qed.

Lemma suggest_outer_counted g label (seen_ rest : list string) counts :
  Z.of_nat (size g) ≤ INT_MAX →
  NoDup (seen_ ++ rest) →
  counted g label seen_ counts →
  counted g label (seen_ ++ rest)
    (foldl (λ counts friendName,
              match g !! friendName with
              | None => counts
              | Some fs => suggest_inner g label (neighbors g label) counts (set_iter fs)
              end) counts rest).
Proof.
  intros Hsize. revert seen_ counts.
  induction rest as [|f rest IH]; intros seen_ counts Hnd Hc; cbn [foldl].
  { by rewrite app_nil_r. }
  replace (seen_ ++ f :: rest) with ((seen_ ++ [f]) ++ rest) in *
    by (by rewrite <-app_assoc).
  apply IH; [done|]. clear IH.
  assert (NoDup (seen_ ++ [f])) as Hnd1 by (by apply NoDup_app in Hnd as [? _]).
  pose proof (via_le_size g) as Hle.
  intros c. rewrite via_snoc. specialize (Hc c).
  destruct (g !! f) as [fs|] eqn:Hf.
  - rewrite suggest_inner_lookup by apply NoDup_set_iter.
    assert (neighbors g f = fs) as Hnf by (unfold neighbors; by rewrite Hf).
    rewrite Hnf.
    destruct (decide (c ∈ fs)) as [Hcf|Hcf].
    + destruct (decide (candidate g label c)) as [Hcand|Hcand].
      * rewrite decide_True by (split; [by apply elem_of_set_iter|done]).
        rewrite decide_True by (split; [done|lia]).
        f_equal. rewrite Hc.
        specialize (Hle c (seen_ ++ [f]) Hnd1). rewrite via_snoc, Hnf in Hle.
        rewrite decide_True in Hle by done.
        destruct (decide (candidate g label c ∧ (0 < via g c seen_)%nat))
          as [[_ Hpos]|Hz]; simpl.
        -- rewrite int_add_small; unfold INT_MAX in *; lia.
        -- assert (via g c seen_ = 0%nat) as Hv0.
           { destruct (via g c seen_); [done|]. destruct Hz. split; [done|lia]. }
           rewrite int_add_small; unfold INT_MAX in *; lia.
      * rewrite decide_False by tauto. rewrite decide_False by tauto.
        rewrite Hc. by rewrite decide_False by tauto.
    + rewrite decide_False by (rewrite elem_of_set_iter; tauto).
      by rewrite Hc, Nat.add_0_r.
  - assert (c ∉ neighbors g f) as Hcf.
    { unfold neighbors. rewrite Hf. apply not_elem_of_empty. }
    destruct (decide (c ∈ neighbors g f)); [done|]. by rewrite Hc, Nat.add_0_r.
Qed.

Lemma suggest_outer_counted_all g label :
  Z.of_nat (size g) ≤ INT_MAX →
  counted g label (set_iter (neighbors g label))
    (suggest_outer g label (neighbors g label)).
Proof.
  intros Hsize. unfold suggest_outer.
  apply (suggest_outer_counted g label [] (set_iter (neighbors g label)) ∅ Hsize).
  - apply NoDup_set_iter.
  - intros c. rewrite lookup_empty. rewrite decide_False; [done|].
    unfold via. simpl. lia.
Qed.

Lemma via_set_iter g label c : via g c (set_iter (neighbors g label)) = score g label c.
Proof.
  unfold via, score, set_iter. by rewrite merge_sort_Permutation.
Qed.

Lemma string_lt_false_le a b : string_lt b a = false ↔ String.le a b.
Proof.
  split.
  - intros Hba. destruct (decide (a = b)) as [->|Hne]; [done|].
    apply string_lt_le. destruct (string_lt a b) eqn:Hab; [done|].
    destruct Hne. by apply string_lt_total.
  - intros Hle. destruct (string_lt b a) eqn:Hba; [|done].
    pose proof (string_lt_le _ _ Hba) as Hle'.
    apply string_lt_ne in Hba. destruct Hba. by apply (anti_symm String.le).
Qed.

Lemma not_after_spec x y :
  not_after x y ↔ x.2 > y.2 ∨ (x.2 = y.2 ∧ String.le x.1 y.1).
Proof.
  unfold not_after, suggestion_before. case_bool_decide as Hne.
  - rewrite bool_decide_eq_false. split; [intros ?; left; lia|].
    intros [?|[? _]]; [lia|congruence].
  - rewrite string_lt_false_le. split.
    + intros ?. right. split; [congruence|done].
    + intros [?|[_ ?]]; [lia|done].
Qed.

Global Instance not_after_total : Total not_after.
Proof.
  intros x y. rewrite !not_after_spec.
  destruct (Z.lt_trichotomy x.2 y.2) as [?|[?|?]]; [right; left; lia| |left; left; lia].
  destruct (total String.le x.1 y.1); [left|right]; right; split; done.
Qed.

Global Instance not_after_trans : Transitive not_after.
Proof.
  intros x y z. rewrite !not_after_spec.
  intros [?|[? Hxy]] [?|[? Hyz]]; [left; lia..|].
  right. split; [lia|]. by trans y.1.
Qed.

Lemma before_of_not_after x y :
  not_after x y → x.1 ≠ y.1 → suggestion_before x y = true.
Proof.
  rewrite not_after_spec. unfold suggestion_before. intros Hxy Hne.
  case_bool_decide as H2.
  - apply bool_decide_eq_true. destruct Hxy as [?|[? _]]; [done|congruence].
  - destruct Hxy as [?|[_ Hle]]; [lia|].
    by apply string_le_ne_lt.
Qed.

(** [std::sort] on a vector with pairwise different names leaves it in the
    order of the comparator. *)
Lemma std_sort_sorted l :
  NoDup l.*1 → StronglySorted (λ x y, suggestion_before x y = true) (std_sort l).
Proof.
  intros Hnd.
  assert (NoDup (std_sort l).*1) as Hnd'.
  { unfold std_sort. by rewrite merge_sort_Permutation. }
  assert (StronglySorted not_after (std_sort l)) as Hs
    by apply (StronglySorted_merge_sort _).
  induction Hs as [|x r Hs IH Hall]; [constructor|].
  rewrite fmap_cons in Hnd'. apply NoDup_cons in Hnd' as [Hx Hnd'].
  constructor; [by apply IH|].
  rewrite Forall_forall in Hall |- *. intros y Hy.
  apply before_of_not_after; [by apply Hall|].
  intros Heq. apply Hx. rewrite Heq. apply list_elem_of_fmap. by exists y.
Qed.

Lemma NoDup_map_iter_keys {V} (m : gmap string V) : NoDup (map_iter m).*1.
Proof.
  unfold map_iter. rewrite merge_sort_Permutation. apply NoDup_fst_map_to_list.
Qed.

Lemma elem_of_std_sort l x : x ∈ std_sort l ↔ x ∈ l.
Proof. unfold std_sort. by rewrite merge_sort_Permutation. Qed.

(** X19. For a user [label] of a graph with at most [INT_MAX] users,
    [suggestFriends] lists exactly the users other than [label] that are
    not friends of [label] and are friends of at least one friend of
    [label], each with the number of such friends as its score; the list
    is ordered by score, highest first, and by name within one score; no
    name is listed twice, and nothing is written to [cout]. *)
Theorem suggestFriends_scores (label : string) (w : World) :
  Z.of_nat (size (adj w)) ≤ INT_MAX →
  is_user (adj w) label →
  (∀ c s, (c, s) ∈ (suggestFriends label w).1
          ↔ candidate (adj w) label c
            ∧ s = Z.of_nat (score (adj w) label c) ∧ 0 < s)
  ∧ StronglySorted (λ x y, suggestion_before x y = true) (suggestFriends label w).1
  ∧ NoDup (suggestFriends label w).1.*1
  ∧ run (suggestFriends label) w = w.
Proof.
  intros Hsize [df Hdf].
  assert (neighbors (adj w) label = df) as Hn by (unfold neighbors; by rewrite Hdf).
  subst df.
  assert (suggestFriends label w
          = (std_sort (map_iter (suggest_outer (adj w) label (neighbors (adj w) label))), w))
    as Heq.
  { unfold suggestFriends. unfold_M. by rewrite Hdf. }
  unfold run. rewrite Heq.
  pose proof (suggest_outer_counted_all (adj w) label Hsize) as Hc.
  cbn [fst]. split; [|split; [|split]].
  - intros c s. rewrite elem_of_std_sort, elem_of_map_iter, (Hc c).
    rewrite via_set_iter.
    case_decide as Hd; split.
    + intros [= <-]. split; [tauto|]. split; [done|lia].
    + intros (_ & -> & _). done.
    + done.
    + intros (Hcand & -> & Hpos). destruct Hd. split; [done|lia].
  - apply std_sort_sorted, NoDup_map_iter_keys.
  - unfold std_sort. rewrite merge_sort_Permutation. apply NoDup_map_iter_keys.
  - done.
Qed.

Lemma suggestFriends_scores_witness :
  StronglySorted (λ x y, suggestion_before x y = true) (suggestFriends "Alice" demo).1.
Proof.
  refine (proj1 (proj2 (suggestFriends_scores "Alice" demo _ _))).
  - apply demo_size.
  - apply demo_user. by_compute.
Defined.

(** * Display *)

Example demo_printGraph_Charlie :
  cout (run printGraph demo) !! 19%nat
  = Some "'Charlie' is friends with: {'Alice', 'David', 'Eve'}".
Proof. vm_compute. reflexivity. Qed.

Lemma print_lines_fold (l : list (string * gset string)) (out : M unit) w :
  foldl (λ (out : M unit) pair, out;; print (user_line pair)) out l w
  = (tt, mkWorld (adj (out w).2) (cout (out w).2 ++ (user_line <$> l))).
Proof.
  revert out. induction l as [|p l IH]; intros out; cbn [foldl].
  { rewrite fmap_nil, app_nil_r. by destruct (out w) as [[] []]. }
  rewrite IH. unfold_M. destruct (out w) as [[] w1]. cbn [fst snd adj cout].
  by rewrite fmap_cons, <-app_assoc.
Qed.

Lemma print_users_run l w :
  print_users l w = (tt, mkWorld (adj w) (cout w ++ (user_line <$> l))).
Proof. unfold print_users. rewrite print_lines_fold. by unfold_M. Qed.

Global Instance key_le_total {V} : Total (@key_le V).
Proof. intros x y. unfold key_le. apply (total String.le). Qed.

Global Instance key_le_trans {V} : Transitive (@key_le V).
Proof. intros x y z. unfold key_le. apply (transitivity (R := String.le)). Qed.

(** The entries of a [std::map] come in strictly ascending order of key. *)
Lemma ascending_map_iter {V} (m : gmap string V) : ascending (map_iter m).*1.
Proof.
  pose proof (NoDup_map_iter_keys m) as Hnd.
  assert (StronglySorted key_le (map_iter m)) as Hs
    by apply (StronglySorted_merge_sort _).
  unfold ascending. induction Hs as [|x l Hs IH Hall]; [constructor|].
  rewrite fmap_cons in Hnd |- *. apply NoDup_cons in Hnd as [Hx Hnd].
  constructor; [by apply IH|].
  apply Forall_forall. intros k [y [-> Hy]]%list_elem_of_fmap.
  apply string_le_ne_lt; [exact (proj1 (Forall_forall _ _) Hall y Hy)|].
  intros Heq. apply Hx. rewrite Heq. apply list_elem_of_fmap. by exists y.
Qed.

(** X20. [printGraph] does not touch the graph.  On an empty network it
    writes the header and "The network is empty."; otherwise it writes the
    header, one line for every user in ascending order of name, and the
    footer. *)
Theorem printGraph_lines (w : World) :
  adj (run printGraph w) = adj w
  ∧ (adj w = ∅ →
     cout (run printGraph w)
     = cout w ++ [newline +:+ "--- Social Network Graph ---"; "The network is empty."])
  ∧ (adj w ≠ ∅ →
     cout (run printGraph w)
     = cout w ++ [newline +:+ "--- Social Network Graph ---"]
         ++ (user_line <$> map_iter (adj w))
         ++ ["----------------------------" +:+ newline]
     ∧ length (map_iter (adj w)) = size (adj w)
     ∧ ascending (map_iter (adj w)).*1).
Proof.
  unfold printGraph. unfold_M. case_bool_decide as He.
  - cbn [adj cout]. split; [done|]. split; [|done].
    intros _. by rewrite <-app_assoc.
  - rewrite print_users_run. unfold_M.
    split; [done|]. split; [done|]. intros _.
    split; [by rewrite <-!app_assoc|]. split; [|apply ascending_map_iter].
    unfold map_iter. rewrite merge_sort_Permutation. apply length_map_to_list.
Qed.

Lemma printGraph_lines_witness :
  cout (run printGraph empty_world)
  = cout empty_world
      ++ [newline +:+ "--- Social Network Graph ---"; "The network is empty."].
Proof.
  apply (proj1 (proj2 (printGraph_lines empty_world))). reflexivity.
Defined.
